(** * Crypto arbitrage trading bot: a shallow embedding of [main.py]

    The simulation in [main.py] is embedded function by function.

    - Python floats are idealised as exact rationals ([Q]): rounding,
      infinities and NaN are not modelled.  Float division is the one
      partial operation, it raises [ZeroDivisionError] on a zero divisor.
    - [random.random()] is an explicit source of draws threaded through
      the code in a state-and-exception monad; [random.uniform a b] is
      [a + (b - a) * random()], as in CPython.
    - Python dicts keep insertion order and overwrite in place: they are
      association lists with that update discipline.
    - [sorted] is stable; it is modelled by a stable insertion sort.
    - Console output is not modelled, except for the overall summary whose
      optional lines are the subject of a property. *)

From Stdlib Require Import QArith Qminmax Lqa ZArith Lia Bool List String Permutation.
Import ListNotations.
Open Scope Q_scope.

(** ** Python values and exceptions *)

Inductive PyError : Type :=
| IndexError
| KeyError
| ZeroDivisionError.

Inductive Result (A : Type) : Type :=
| Ok (a : A)
| Raise (e : PyError).
Arguments Ok {A} a.
Arguments Raise {A} e.

Definition rbind {A B} (r : Result A) (k : A -> Result B) : Result B :=
  match r with
  | Ok a => k a
  | Raise e => Raise e
  end.

Declare Scope py_scope.
Delimit Scope py_scope with py.
Notation "x <~ r ;; k" := (rbind r (fun x => k))
  (at level 61, r at next level, right associativity) : py_scope.
Open Scope py_scope.

Definition Qltb (x y : Q) : bool := negb (Qle_bool y x).

(** Float true division, [x / y]. *)
Definition py_div (x y : Q) : Result Q :=
  if Qeq_bool y 0 then Raise ZeroDivisionError else Ok (x / y).

(** ** The random source and the monad of the simulation *)

Record Rng : Type := mkRng {
  draws : nat -> Q;   (* the successive results of random.random() *)
  pos : nat           (* how many have been consumed *)
}.

Definition M (A : Type) : Type := Rng -> Result (A * Rng).

Definition ret {A} (a : A) : M A := fun g => Ok (a, g).

Definition bind {A B} (m : M A) (k : A -> M B) : M B :=
  fun g => match m g with
           | Ok (a, g') => k a g'
           | Raise e => Raise e
           end.

Definition lift {A} (r : Result A) : M A :=
  fun g => match r with
           | Ok a => Ok (a, g)
           | Raise e => Raise e
           end.

Notation "x <- m ;; k" := (bind m (fun x => k))
  (at level 61, m at next level, right associativity) : py_scope.

(** [random.random()] *)
Definition random : M Q :=
  fun g => Ok (draws g (pos g), mkRng (draws g) (S (pos g))).

(** [random.uniform(a, b)] *)
Definition uniform (a b : Q) : M Q :=
  r <- random ;; ret (a + (b - a) * r).

(** ** Dicts: insertion-ordered association lists *)

Definition dict (V : Type) : Type := list (string * V).

Fixpoint dict_get {V} (k : string) (d : dict V) : option V :=
  match d with
  | [] => None
  | (k', v) :: d' => if String.eqb k k' then Some v else dict_get k d'
  end.

(** [d[k] = v]: an existing key keeps its position, a new key goes last. *)
Fixpoint dict_set {V} (k : string) (v : V) (d : dict V) : dict V :=
  match d with
  | [] => [(k, v)]
  | (k', v') :: d' =>
      if String.eqb k k' then (k', v) :: d' else (k', v') :: dict_set k v d'
  end.

Definition keys {V} (d : dict V) : list string := map fst d.

(** [d[k]] *)
Definition dict_index {V} (k : string) (d : dict V) : Result V :=
  match dict_get k d with
  | Some v => Ok v
  | None => Raise KeyError
  end.

(** [l[0]] and [l[-1]] *)
Definition index_first {A} (l : list A) : Result A :=
  match l with
  | [] => Raise IndexError
  | x :: _ => Ok x
  end.

Fixpoint index_last {A} (l : list A) : Result A :=
  match l with
  | [] => Raise IndexError
  | [x] => Ok x
  | _ :: l' => index_last l'
  end.

(** ** class Exchange *)

Record Exchange : Type := mkExchange {
  name : string;
  trading_fee : Q;       (* a percentage: 0.1 means 0.1% *)
  price_variation : Q    (* a fraction: 0.01 means 1% *)
}.

(** [Exchange.__init__]: the three arguments are stored as they are. *)
Definition Exchange_init (n : string) (fee variation : Q) : Result Exchange :=
  Ok (mkExchange n fee variation).

Definition get_price (self : Exchange) (coin : string) (base_price : Q) : M Q :=
  u <- uniform (- price_variation self) (price_variation self) ;;
  let variation := 1 + u in
  ret (base_price * variation).

Definition calculate_fee (self : Exchange) (amount : Q) : Q :=
  amount * (trading_fee self / 100).

(** ** class ArbitrageBot *)

(** The value stored under an exchange name in [prices]. *)
Record PriceEntry : Type := mkEntry {
  price : Q;
  exchange : Exchange
}.

(** The tuple returned by the scan. *)
Record Opportunity : Type := mkOpp {
  opp_coin : string;
  opp_buy_ex : Exchange;
  opp_sell_ex : Exchange;
  opp_buy_price : Q;
  opp_sell_price : Q;
  opp_profit_pct : Q;
  opp_buy_fee : Q;
  opp_sell_fee : Q
}.

(** The dict appended to [trades]. *)
Record TradeRecord : Type := mkTrade {
  tr_timestamp : string;
  tr_coin : string;
  tr_quantity : Q;
  tr_buy_exchange : string;
  tr_sell_exchange : string;
  tr_buy_price : Q;
  tr_sell_price : Q;
  tr_buy_fee : Q;
  tr_sell_fee : Q;
  tr_total_fees : Q;
  tr_net_profit : Q;
  tr_profit_pct : Q;
  tr_capital_after : Q
}.

Record Bot : Type := mkBot {
  capital : Q;
  exchanges : list Exchange;
  base_prices : dict Q;
  coins : list string;
  trades : list TradeRecord;
  total_profit : Q;
  successful_trades : Z;
  failed_trades : Z
}.

Definition default_exchanges : list Exchange :=
  [ mkExchange "Binance" (1 # 10) (15 # 1000);
    mkExchange "Coinbase" (5 # 10) (2 # 100);
    mkExchange "Kraken" (26 # 100) (18 # 1000);
    mkExchange "Bybit" (1 # 10) (12 # 1000) ].

Definition default_base_prices : dict Q :=
  [ ("BTC"%string, 45000); ("ETH"%string, 2500); ("BNB"%string, 320);
    ("SOL"%string, 100); ("ADA"%string, 50 # 100); ("XRP"%string, 60 # 100);
    ("DOGE"%string, 8 # 100); ("MATIC"%string, 85 # 100) ].

(** [ArbitrageBot.__init__]: the only argument is the initial capital; the
    exchanges and the base prices are fixed in the constructor. *)
Definition ArbitrageBot_init (initial_capital : Q) : Result Bot :=
  Ok {| capital := initial_capital;
        exchanges := default_exchanges;
        base_prices := default_base_prices;
        coins := keys default_base_prices;
        trades := [];
        total_profit := 0;
        successful_trades := 0%Z;
        failed_trades := 0%Z |}.

(** [update_market_prices]: one draw per coin, in dict order. *)
Fixpoint update_prices_loop (d : dict Q) : M (dict Q) :=
  match d with
  | [] => ret []
  | (coin, p) :: d' =>
      market_change <- uniform (- (5 # 1000)) (5 # 1000) ;;
      rest <- update_prices_loop d' ;;
      ret ((coin, p * (1 + market_change)) :: rest)
  end.

Definition update_market_prices (self : Bot) : M Bot :=
  bp <- update_prices_loop (base_prices self) ;;
  ret {| capital := capital self;
         exchanges := exchanges self;
         base_prices := bp;
         coins := coins self;
         trades := trades self;
         total_profit := total_profit self;
         successful_trades := successful_trades self;
         failed_trades := failed_trades self |}.

(** *** The scan *)

(** The inner loop of the scan: one quote per exchange, in list order,
    stored under the exchange's name. *)
Fixpoint quote_loop (coin : string) (base_price : Q) (exs : list Exchange)
    (prices : dict PriceEntry) : M (dict PriceEntry) :=
  match exs with
  | [] => ret prices
  | ex :: rest =>
      p <- get_price ex coin base_price ;;
      quote_loop coin base_price rest (dict_set (name ex) (mkEntry p ex) prices)
  end.

Definition item : Type := (string * PriceEntry)%type.

(** [sorted(prices.items(), key=lambda x: x[1]['price'])]: stable, so an item
    is placed after the items whose price is not greater than its own. *)
Fixpoint insert_item (x : item) (l : list item) : list item :=
  match l with
  | [] => [x]
  | y :: l' =>
      if Qltb (price (snd x)) (price (snd y)) then x :: y :: l'
      else y :: insert_item x l'
  end.

Definition sorted (items : list item) : list item :=
  fold_left (fun acc x => insert_item x acc) items [].

(** Lines 98 to 104: the items with the lowest and the highest price are the
    first and the last of the sorted items. *)
Definition lowest_highest (prices : dict PriceEntry) : Result (item * item) :=
  let sorted_prices := sorted prices in
  lowest <~ index_first sorted_prices ;;
  highest <~ index_last sorted_prices ;;
  Ok (lowest, highest).

(** Lines 98 to 115: from the quotes of one coin to its candidate. *)
Definition evaluate (coin : string) (prices : dict PriceEntry) : Result Opportunity :=
  lh <~ lowest_highest prices ;;
  let buy_exchange := exchange (snd (fst lh)) in
  let sell_exchange := exchange (snd (snd lh)) in
  let buy_price := price (snd (fst lh)) in
  let sell_price := price (snd (snd lh)) in
  let buy_fee := calculate_fee buy_exchange buy_price in
  let sell_fee := calculate_fee sell_exchange sell_price in
  let net_buy_price := buy_price + buy_fee in
  let net_sell_price := sell_price - sell_fee in
  ratio <~ py_div (net_sell_price - net_buy_price) net_buy_price ;;
  let profit_pct := ratio * 100 in
  Ok (mkOpp coin buy_exchange sell_exchange buy_price sell_price
            profit_pct buy_fee sell_fee).

(** The body of the loop over the coins.  [best] is the pair of
    [best_opportunity] and [best_profit_pct]. *)
Definition scan_coin (self : Bot) (min_profit_threshold : Q) (coin : string)
    (best : option Opportunity * Q) : M (option Opportunity * Q) :=
  base_price <- lift (dict_index coin (base_prices self)) ;;
  prices <- quote_loop coin base_price (exchanges self) [] ;;
  cand <- lift (evaluate coin prices) ;;
  if Qltb (snd best) (opp_profit_pct cand)
     && Qle_bool min_profit_threshold (opp_profit_pct cand)
  then ret (Some cand, opp_profit_pct cand)
  else ret best.

Fixpoint scan_loop (self : Bot) (min_profit_threshold : Q) (cs : list string)
    (best : option Opportunity * Q) : M (option Opportunity * Q) :=
  match cs with
  | [] => ret best
  | coin :: rest =>
      best' <- scan_coin self min_profit_threshold coin best ;;
      scan_loop self min_profit_threshold rest best'
  end.

Definition find_arbitrage_opportunity (self : Bot) (min_profit_threshold : Q)
    : M (option Opportunity) :=
  best <- scan_loop self min_profit_threshold (coins self) (None, 0) ;;
  ret (fst best).

(** *** The ledger *)

(** [execute_trade].  [now] is the formatted [datetime.now()] of the call.
    The division comes before every assignment, so a raised error leaves the
    bot as it was. *)
Definition execute_trade (now : string) (self : Bot)
    (opportunity : option Opportunity) : Result (Bot * option TradeRecord) :=
  match opportunity with
  | None =>
      Ok ({| capital := capital self;
             exchanges := exchanges self;
             base_prices := base_prices self;
             coins := coins self;
             trades := trades self;
             total_profit := total_profit self;
             successful_trades := successful_trades self;
             failed_trades := (failed_trades self + 1)%Z |}, None)
  | Some (mkOpp coin buy_ex sell_ex buy_price sell_price profit_pct buy_fee sell_fee) =>
      let trade_amount := capital self * (1 # 10) in
      quantity <~ py_div trade_amount buy_price ;;
      let total_buy_cost := (buy_price * quantity) + (buy_fee * quantity) in
      let total_sell_revenue := (sell_price * quantity) - (sell_fee * quantity) in
      let net_profit := total_sell_revenue - total_buy_cost in
      let capital' := capital self + net_profit in
      let trade_record :=
        {| tr_timestamp := now;
           tr_coin := coin;
           tr_quantity := quantity;
           tr_buy_exchange := name buy_ex;
           tr_sell_exchange := name sell_ex;
           tr_buy_price := buy_price;
           tr_sell_price := sell_price;
           tr_buy_fee := buy_fee * quantity;
           tr_sell_fee := sell_fee * quantity;
           tr_total_fees := (buy_fee + sell_fee) * quantity;
           tr_net_profit := net_profit;
           tr_profit_pct := profit_pct;
           tr_capital_after := capital' |} in
      Ok ({| capital := capital';
             exchanges := exchanges self;
             base_prices := base_prices self;
             coins := coins self;
             trades := trades self ++ [trade_record];
             total_profit := total_profit self + net_profit;
             successful_trades := (successful_trades self + 1)%Z;
             failed_trades := failed_trades self |}, Some trade_record)
  end.

(** *** The overall summary *)

(** What [print_overall_summary] prints, line by line; the two optional
    lines are [None] when they are not printed. *)
Record Summary : Type := mkSummary {
  sum_total_iterations : Z;
  sum_successful_trades : Z;
  sum_missed : Z;
  sum_success_rate : Q;
  sum_total_profit : Q;
  sum_final_capital : Q;
  sum_roi : option Q;
  sum_avg_profit : option Q
}.

Definition print_overall_summary (self : Bot) : Result Summary :=
  let total := (successful_trades self + failed_trades self)%Z in
  rate <~ py_div (inject_Z (successful_trades self)) (inject_Z total) ;;
  roi <~ (if Qltb 0 (capital self - total_profit self)
          then r <~ py_div (total_profit self) (capital self - total_profit self) ;;
               Ok (Some (r * 100))
          else Ok None) ;;
  avg <~ (if (0 <? successful_trades self)%Z
          then avg_profit <~ py_div (total_profit self)
                                    (inject_Z (successful_trades self)) ;;
               Ok (Some avg_profit)
          else Ok None) ;;
  Ok (mkSummary total (successful_trades self) (failed_trades self)
                (rate * 100) (total_profit self) (capital self) roi avg).

(** *** The driver *)

(** One pass of the main loop of [run]; [now] is the time of the trade. *)
Definition iteration (now : string) (min_profit : Q) (self : Bot) : M Bot :=
  self1 <- update_market_prices self ;;
  opportunity <- find_arbitrage_opportunity self1 min_profit ;;
  r <- lift (execute_trade now self1 opportunity) ;;
  ret (fst r).

(** [for i in range(num_iterations)], from iteration [i] on. *)
Fixpoint run_loop (clock : nat -> string) (min_profit : Q) (n i : nat)
    (self : Bot) : M Bot :=
  match n with
  | O => ret self
  | S n' =>
      self' <- iteration (clock i) min_profit self ;;
      run_loop clock min_profit n' (S i) self'
  end.

Definition run (clock : nat -> string) (self : Bot) (num_iterations : Z)
    (min_profit : Q) : M (Bot * Summary) :=
  self' <- run_loop clock min_profit (Z.to_nat num_iterations) 0 self ;;
  summary <- lift (print_overall_summary self') ;;
  ret (self', summary).


(** *** The trade report *)



(** *** The entry point *)

(** * Auxiliary definitions for the statements

    None of these is part of the program.  Each one names something the code
    computes on the way, and a lemma of the next part relates it to the
    code: [quote] and [quotes] to [get_price] and the draws it consumes,
    [prices_of] to the dict left by [quote_loop], [lowest_from] and
    [highest_from] to the two ends of [sorted], [candidates] and
    [update_best] to the loop over the coins. *)

(** The sort key of an item. *)
Definition key (x : item) : Q := price (snd x).

(** The first item of lowest price and the last item of highest price of
    [b :: l], scanning from the left. *)
Fixpoint lowest_from (b : item) (l : list item) : item :=
  match l with
  | [] => b
  | x :: l' => lowest_from (if Qltb (key x) (key b) then x else b) l'
  end.

Fixpoint highest_from (b : item) (l : list item) : item :=
  match l with
  | [] => b
  | x :: l' => highest_from (if Qltb (key x) (key b) then b else x) l'
  end.

(** Every item is followed by items of no lower price. *)
Fixpoint ascending (l : list item) : Prop :=
  match l with
  | [] => True
  | x :: l' => (forall y, In y l' -> key x <= key y) /\ ascending l'
  end.

(** The dict built by the inner loop of the scan from the quotes [qs], taken
    in the order of the exchange list. *)
Definition prices_from (d : dict PriceEntry) (qs : list PriceEntry) : dict PriceEntry :=
  fold_left (fun d q => dict_set (name (exchange q)) q d) qs d.

Definition prices_of (qs : list PriceEntry) : dict PriceEntry := prices_from [] qs.

Definition names (qs : list PriceEntry) : list string :=
  map (fun q => name (exchange q)) qs.

(** The item under which a quote is stored. *)
Definition item_of (q : PriceEntry) : item := (name (exchange q), q).

(** The random source after one draw, and after [n] draws. *)
Definition next (g : Rng) : Rng := mkRng (draws g) (S (pos g)).

Fixpoint skip (n : nat) (g : Rng) : Rng :=
  match n with
  | O => g
  | S n' => skip n' (next g)
  end.

(** The quote of an exchange when the next draw is that of [g]. *)
Definition quote (ex : Exchange) (base_price : Q) (g : Rng) : Q :=
  base_price *
  (1 + (- price_variation ex
        + (price_variation ex - - price_variation ex) * draws g (pos g))).

(** The quotes of one coin, in the order of the exchange list. *)
Fixpoint quotes (base_price : Q) (exs : list Exchange) (g : Rng) : list PriceEntry :=
  match exs with
  | [] => []
  | ex :: rest => mkEntry (quote ex base_price g) ex :: quotes base_price rest (next g)
  end.


(** The quote stored last under the name [n] while [qs] is processed, [acc]
    being what was stored before. *)
Fixpoint last_named (n : string) (qs : list PriceEntry) (acc : option PriceEntry)
    : option PriceEntry :=
  match qs with
  | [] => acc
  | q :: qs' =>
      last_named n qs' (if String.eqb n (name (exchange q)) then Some q else acc)
  end.

(** The bot with another exchange list. *)
Definition with_exchanges (self : Bot) (exs : list Exchange) : Bot :=
  {| capital := capital self;
     exchanges := exs;
     base_prices := base_prices self;
     coins := coins self;
     trades := trades self;
     total_profit := total_profit self;
     successful_trades := successful_trades self;
     failed_trades := failed_trades self |}.

(** ** Concrete configurations *)

Definition constant_rng (r : Q) : Rng := mkRng (fun _ => r) 0.

Definition bot_of (c : Q) (exs : list Exchange) (bp : dict Q) : Bot :=
  {| capital := c;
     exchanges := exs;
     base_prices := bp;
     coins := keys bp;
     trades := [];
     total_profit := 0;
     successful_trades := 0%Z;
     failed_trades := 0%Z |}.

(** Two exchanges that quote the base price and a third that quotes 10% less
    when the draw is 1/4. *)
Definition exA : Exchange := mkExchange "A" 0 0.
Definition exB : Exchange := mkExchange "B" 0 0.
Definition exC : Exchange := mkExchange "C" 0 (2 # 10).

Definition tie_bot : Bot := bot_of 10000 [exA; exB; exC] [("X"%string, 100)].

(** ** The candidates of a scan *)

(** The candidates of the coins [cs], one per coin in scan order: the loop
    over the coins without the bookkeeping of the best one. *)
Fixpoint candidates (self : Bot) (cs : list string) : M (list Opportunity) :=
  match cs with
  | [] => ret []
  | coin :: rest =>
      base_price <- lift (dict_index coin (base_prices self)) ;;
      prices <- quote_loop coin base_price (exchanges self) [] ;;
      cand <- lift (evaluate coin prices) ;;
      others <- candidates self rest ;;
      ret (cand :: others)
  end.

(** The update of [best_opportunity] and [best_profit_pct] by a candidate. *)
Definition update_best (thr : Q) (best : option Opportunity * Q) (cand : Opportunity)
    : option Opportunity * Q :=
  if Qltb (snd best) (opp_profit_pct cand) && Qle_bool thr (opp_profit_pct cand)
  then (Some cand, opp_profit_pct cand)
  else best.

(** [o] is the first candidate of highest profit percentage. *)
Definition first_best (cands : list Opportunity) (o : Opportunity) : Prop :=
  exists l1 l2,
    cands = l1 ++ o :: l2 /\
    (forall x, In x l1 -> opp_profit_pct x < opp_profit_pct o) /\
    (forall x, In x l2 -> opp_profit_pct x <= opp_profit_pct o).

(** A candidate the scan may keep. *)
Definition qualifies (thr : Q) (o : Opportunity) : Prop :=
  0 < opp_profit_pct o /\ thr <= opp_profit_pct o.

(** What the loop over the coins maintains, [seen] being the candidates of
    the coins scanned so far. *)
Definition scan_inv (thr : Q) (seen : list Opportunity)
    (best : option Opportunity * Q) : Prop :=
  match fst best with
  | None => snd best = 0 /\ forall x, In x seen -> ~ qualifies thr x
  | Some o => snd best = opp_profit_pct o /\ qualifies thr o /\ first_best seen o
  end.

(** Two exchanges without fee that quote the base price, and two that take
    a fee of 1% each. *)
Definition break_even_bot : Bot := bot_of 10000 [exA; exB] [("X"%string, 100)].

Definition losing_bot : Bot :=
  bot_of 10000 [mkExchange "A" 1 0; mkExchange "B" 1 0] [("X"%string, 100)].

(** A bot that lost its capital and missed three iterations. *)
Definition missing_bot : Bot :=
  {| capital := 0; exchanges := [exA]; base_prices := [("X"%string, 100)];
     coins := ["X"%string]; trades := []; total_profit := 0;
     successful_trades := 0; failed_trades := 3 |}.

(** ** Well-formed configurations *)

(** Fee rates as the data model has them: not negative. *)
Definition fees_ok (self : Bot) : Prop :=
  Forall (fun e => 0 <= trading_fee e) (exchanges self).

(** The draws of [random.random()] lie in [0, 1). *)
Definition unit_draws (g : Rng) : Prop :=
  forall n, 0 <= draws g n /\ draws g n < 1.


(** The bot of [main]: 10000 of initial capital. *)
Definition main_bot : Bot :=
  {| capital := 10000;
     exchanges := default_exchanges;
     base_prices := default_base_prices;
     coins := keys default_base_prices;
     trades := [];
     total_profit := 0;
     successful_trades := 0%Z;
     failed_trades := 0%Z |}.

(** Draws that alternate between 0 and 0.99. *)
Definition alternating_rng : Rng :=
  mkRng (fun n => if Nat.even n then 0 else 99 # 100) 0.

(** ** Configurations whose quotes are positive *)



(** The relative change of a base price in one market update. *)
Definition small_change (p p' : Q) : Prop :=
  exists m, - (5 # 1000) <= m /\ m < 5 # 1000 /\ p' = p * (1 + m).

(** ** The ledger over time *)

(** The sum of the net profits of a list of trade records. *)
Definition sum_net_profit (l : list TradeRecord) : Q :=
  fold_right (fun t acc => tr_net_profit t + acc) 0 l.

(** [self'] is [self] after [n] iterations that appended the records [new]. *)
Definition ledger_extends (self self' : Bot) (new : list TradeRecord) (n : nat) : Prop :=
  trades self' = trades self ++ new /\
  successful_trades self' = (successful_trades self + Z.of_nat (List.length new))%Z /\
  (successful_trades self' + failed_trades self'
   = successful_trades self + failed_trades self + Z.of_nat n)%Z /\
  total_profit self' == total_profit self + sum_net_profit new /\
  capital self' == capital self + sum_net_profit new /\
  exchanges self' = exchanges self /\
  coins self' = coins self /\
  keys (base_prices self') = keys (base_prices self).
(** * Properties *)

(** ** Comparisons and division *)

Lemma Qltb_lt (x y : Q) : Qltb x y = true <-> x < y.
Proof.
  unfold Qltb. rewrite negb_true_iff.
  split; intro H.
  - apply Qnot_le_lt. intro Hle. apply Qle_bool_iff in Hle. congruence.
  - destruct (Qle_bool y x) eqn:E; [|reflexivity].
    apply Qle_bool_iff in E. lra.
Qed.

Lemma Qltb_ge (x y : Q) : Qltb x y = false <-> y <= x.
Proof.
  unfold Qltb. rewrite negb_false_iff. apply Qle_bool_iff.
Qed.

Lemma py_div_ok (x y : Q) : ~ y == 0 -> py_div x y = Ok (x / y).
Proof.
  intro H. unfold py_div.
  destruct (Qeq_bool y 0) eqn:E; [|reflexivity].
  apply Qeq_bool_iff in E. contradiction.
Qed.

Lemma py_div_zero (x y : Q) : y == 0 -> py_div x y = Raise ZeroDivisionError.
Proof.
  intro H. unfold py_div. apply Qeq_bool_iff in H. now rewrite H.
Qed.

Lemma py_div_inv (x y q : Q) : py_div x y = Ok q -> ~ y == 0 /\ q = x / y.
Proof.
  unfold py_div. destruct (Qeq_bool y 0) eqn:E; [discriminate|].
  intro H. injection H as <-. split; [|reflexivity].
  intro Hy. apply Qeq_bool_iff in Hy. congruence.
Qed.

(** ** The stable sort and its two ends *)

Section Sorting.

Lemma insert_item_In x y l : In y (insert_item x l) <-> y = x \/ In y l.
Proof.
  induction l as [|z l IH]; simpl.
  - intuition.
  - destruct (Qltb (price (snd x)) (price (snd z))); simpl.
    + intuition.
    + rewrite IH. intuition.
Qed.

Lemma insert_item_ascending x l : ascending l -> ascending (insert_item x l).
Proof.
  induction l as [|z l IH]; simpl.
  - intros _. split; [intros y []|exact I].
  - intros [Hz Hl].
    destruct (Qltb (price (snd x)) (price (snd z))) eqn:E; simpl.
    + apply Qltb_lt in E. fold (key x) (key z) in E. split.
      * intros y [<-|Hy]; [lra|]. specialize (Hz y Hy). lra.
      * split; assumption.
    + apply Qltb_ge in E. fold (key x) (key z) in E. split.
      * intros y Hy. apply insert_item_In in Hy as [->|Hy]; [exact E|auto].
      * auto.
Qed.

Lemma index_first_insert x l :
  index_first (insert_item x l) =
  Ok (match l with
      | [] => x
      | y :: _ => if Qltb (key x) (key y) then x else y
      end).
Proof.
  destruct l as [|y l]; simpl; [reflexivity|].
  unfold key. destruct (Qltb (price (snd x)) (price (snd y))); reflexivity.
Qed.

Lemma index_last_In {A} (l : list A) (h : A) : index_last l = Ok h -> In h l.
Proof.
  induction l as [|a [|b l] IH]; simpl; intro H.
  - discriminate.
  - injection H as <-. now left.
  - right. apply IH. exact H.
Qed.

Lemma index_last_cons {A} (a : A) (l : list A) (h : A) :
  index_last l = Ok h -> index_last (a :: l) = Ok h.
Proof.
  destruct l; simpl; [discriminate|trivial].
Qed.

Lemma index_last_insert x l h :
  ascending l -> index_last l = Ok h ->
  index_last (insert_item x l) = Ok (if Qltb (key x) (key h) then h else x).
Proof.
  induction l as [|z l IH]; simpl; [discriminate|].
  intros [Hz Hl] Hlast.
  destruct (Qltb (price (snd x)) (price (snd z))) eqn:E.
  - (* x goes in front of z: the last item stays *)
    apply Qltb_lt in E. fold (key x) (key z) in E.
    assert (Hzh : key z <= key h).
    { destruct l as [|w l]; [injection Hlast as <-; lra|].
      apply Hz. apply index_last_In. exact Hlast. }
    assert (Hlt : Qltb (key x) (key h) = true) by (apply Qltb_lt; lra).
    rewrite Hlt. apply index_last_cons. simpl. exact Hlast.
  - destruct l as [|w l].
    + injection Hlast as <-. simpl. unfold key. now rewrite E.
    + specialize (IH Hl Hlast).
      apply index_last_cons. exact IH.
Qed.

(** Where the sort of [acc] extended by [l] begins and ends. *)
Lemma sorted_ends l : forall acc f h,
  ascending acc -> index_first acc = Ok f -> index_last acc = Ok h ->
  index_first (fold_left (fun a x => insert_item x a) l acc) = Ok (lowest_from f l) /\
  index_last (fold_left (fun a x => insert_item x a) l acc) = Ok (highest_from h l).
Proof.
  induction l as [|x l IH]; intros acc f h Hasc Hf Hh; simpl.
  - split; assumption.
  - apply IH.
    + apply insert_item_ascending. exact Hasc.
    + rewrite index_first_insert. destruct acc as [|y acc]; [discriminate|].
      simpl in Hf. injection Hf as ->. reflexivity.
    + apply index_last_insert; assumption.
Qed.

Lemma lowest_highest_cons (a : item) (l : list item) :
  lowest_highest (a :: l) = Ok (lowest_from a l, highest_from a l).
Proof.
  unfold lowest_highest, sorted. simpl.
  destruct (sorted_ends l [a] a a) as [Hf Hl]; simpl; auto.
  { split; [intros y []|exact I]. }
  rewrite Hf. simpl. rewrite Hl. reflexivity.
Qed.

Lemma lowest_highest_nil : lowest_highest [] = Raise IndexError.
Proof. reflexivity. Qed.

End Sorting.

(** ** The first lowest and the last highest item *)

Lemma lowest_from_keep m l :
  (forall x, In x l -> key m <= key x) -> lowest_from m l = m.
Proof.
  induction l as [|x l IH]; simpl; intro H; [reflexivity|].
  assert (E : Qltb (key x) (key m) = false) by (apply Qltb_ge; apply H; now left).
  rewrite E. apply IH. intros y Hy. apply H. now right.
Qed.

Lemma highest_from_keep m l :
  (forall x, In x l -> key x < key m) -> highest_from m l = m.
Proof.
  induction l as [|x l IH]; simpl; intro H; [reflexivity|].
  assert (E : Qltb (key x) (key m) = true) by (apply Qltb_lt; apply H; now left).
  rewrite E. apply IH. intros y Hy. apply H. now right.
Qed.

Lemma lowest_from_first m l2 : forall l1 b,
  key m < key b ->
  (forall x, In x l1 -> key m < key x) ->
  (forall x, In x l2 -> key m <= key x) ->
  lowest_from b (l1 ++ m :: l2) = m.
Proof.
  induction l1 as [|x l1 IH]; intros b Hb H1 H2; simpl.
  - assert (E : Qltb (key m) (key b) = true) by (now apply Qltb_lt).
    rewrite E. now apply lowest_from_keep.
  - apply IH.
    + destruct (Qltb (key x) (key b)); [apply H1; now left|exact Hb].
    + intros y Hy. apply H1. now right.
    + exact H2.
Qed.

Lemma highest_from_last m l2 : forall l1 b,
  key b <= key m ->
  (forall x, In x l1 -> key x <= key m) ->
  (forall x, In x l2 -> key x < key m) ->
  highest_from b (l1 ++ m :: l2) = m.
Proof.
  induction l1 as [|x l1 IH]; intros b Hb H1 H2; simpl.
  - assert (E : Qltb (key m) (key b) = false) by (now apply Qltb_ge).
    rewrite E. now apply highest_from_keep.
  - apply IH.
    + destruct (Qltb (key x) (key b)); [exact Hb|apply H1; now left].
    + intros y Hy. apply H1. now right.
    + exact H2.
Qed.

Lemma lowest_from_In l : forall b, In (lowest_from b l) (b :: l).
Proof.
  induction l as [|x l IH]; intro b; simpl; [now left|].
  specialize (IH (if Qltb (key x) (key b) then x else b)).
  destruct (Qltb (key x) (key b)); simpl in IH; intuition.
Qed.

Lemma highest_from_In l : forall b, In (highest_from b l) (b :: l).
Proof.
  induction l as [|x l IH]; intro b; simpl; [now left|].
  specialize (IH (if Qltb (key x) (key b) then b else x)).
  destruct (Qltb (key x) (key b)); simpl in IH; intuition.
Qed.

Lemma lowest_from_le l : forall b x,
  In x (b :: l) -> key (lowest_from b l) <= key x.
Proof.
  induction l as [|y l IH]; intros b x Hx; simpl.
  - destruct Hx as [<-|[]]. lra.
  - destruct (Qltb (key y) (key b)) eqn:E.
    + apply Qltb_lt in E.
      destruct Hx as [<-|[<-|Hx]].
      * specialize (IH y y (or_introl eq_refl)). lra.
      * apply IH. now left.
      * apply IH. now right.
    + apply Qltb_ge in E.
      destruct Hx as [<-|[<-|Hx]].
      * apply IH. now left.
      * specialize (IH b b (or_introl eq_refl)). lra.
      * apply IH. now right.
Qed.

Lemma highest_from_ge l : forall b x,
  In x (b :: l) -> key x <= key (highest_from b l).
Proof.
  induction l as [|y l IH]; intros b x Hx; simpl.
  - destruct Hx as [<-|[]]. lra.
  - destruct (Qltb (key y) (key b)) eqn:E.
    + apply Qltb_lt in E.
      destruct Hx as [<-|[<-|Hx]].
      * apply IH. now left.
      * specialize (IH b b (or_introl eq_refl)). lra.
      * apply IH. now right.
    + apply Qltb_ge in E.
      destruct Hx as [<-|[<-|Hx]].
      * specialize (IH y y (or_introl eq_refl)). lra.
      * apply IH. now left.
      * apply IH. now right.
Qed.

(** ** Dicts *)

Section Dicts.

Context {V : Type}.
Implicit Types (d : dict V) (k n : string) (v : V).

Lemma dict_get_set n k v d :
  dict_get n (dict_set k v d) = if String.eqb n k then Some v else dict_get n d.
Proof.
  induction d as [|[k' v'] d IH]; simpl.
  - reflexivity.
  - destruct (String.eqb k k') eqn:Ekk'; simpl.
    + apply String.eqb_eq in Ekk'. subst k'.
      destruct (String.eqb n k); reflexivity.
    + destruct (String.eqb n k') eqn:Enk'.
      * apply String.eqb_eq in Enk'. subst k'.
        rewrite String.eqb_sym, Ekk'. reflexivity.
      * exact IH.
Qed.

Lemma dict_get_None n d : dict_get n d = None <-> ~ In n (keys d).
Proof.
  induction d as [|[k' v'] d IH]; simpl.
  - intuition.
  - destruct (String.eqb n k') eqn:E.
    + apply String.eqb_eq in E. subst. split; [discriminate|]. intuition.
    + apply String.eqb_neq in E. rewrite IH. intuition congruence.
Qed.

Lemma keys_set_In k v d : In k (keys d) -> keys (dict_set k v d) = keys d.
Proof.
  induction d as [|[k' v'] d IH]; simpl; [intros []|].
  destruct (String.eqb k k') eqn:E; simpl; [reflexivity|].
  apply String.eqb_neq in E.
  intros [H|H]; [congruence|]. f_equal. now apply IH.
Qed.

Lemma dict_set_fresh k v d : ~ In k (keys d) -> dict_set k v d = d ++ [(k, v)].
Proof.
  induction d as [|[k' v'] d IH]; simpl; [reflexivity|].
  intro H. destruct (String.eqb k k') eqn:E.
  - apply String.eqb_eq in E. subst. exfalso. apply H. now left.
  - f_equal. apply IH. intro. apply H. now right.
Qed.

Lemma keys_set_NoDup k v d : NoDup (keys d) -> NoDup (keys (dict_set k v d)).
Proof.
  intro H. destruct (in_dec string_dec k (keys d)) as [Hin|Hout].
  - now rewrite keys_set_In.
  - rewrite dict_set_fresh by assumption. unfold keys. rewrite map_app. simpl.
    apply NoDup_app; try assumption.
    + constructor; [intros []|constructor].
    + intros x Hx [<-|[]]. exact (Hout Hx).
Qed.

Lemma keys_set_same k v v' d d' :
  keys d = keys d' -> keys (dict_set k v d) = keys (dict_set k v' d').
Proof.
  revert d'. induction d as [|[k1 v1] d IH]; intros [|[k2 v2] d'] H;
    simpl in *; try discriminate; [reflexivity|].
  injection H as -> H.
  destruct (String.eqb k k2); simpl; f_equal; auto.
Qed.

Lemma dict_get_In k v d : NoDup (keys d) -> In (k, v) d -> dict_get k d = Some v.
Proof.
  induction d as [|[k' v'] d IH]; simpl; [intros _ []|].
  intros Hnd [Heq|Hin].
  - injection Heq as -> ->. now rewrite String.eqb_refl.
  - inversion Hnd as [|? ? Hk' Hd]; subst.
    destruct (String.eqb k k') eqn:E.
    + apply String.eqb_eq in E. subst. exfalso. apply Hk'.
      change k' with (fst (k', v)). now apply in_map.
    + now apply IH.
Qed.

(** Two dicts with the same keys in the same order and the same values are
    the same dict. *)
Lemma dict_ext d : forall d',
  NoDup (keys d) -> keys d = keys d' ->
  (forall n, dict_get n d = dict_get n d') -> d = d'.
Proof.
  induction d as [|[k1 v1] d IH]; intros [|[k2 v2] d'] Hnd Hk Hget;
    simpl in *; try discriminate; [reflexivity|].
  injection Hk as -> Hk. inversion Hnd as [|? ? Hk2 Hd]; subst.
  f_equal.
  - specialize (Hget k2). rewrite String.eqb_refl in Hget. congruence.
  - apply IH; try assumption.
    intro n. specialize (Hget n).
    destruct (String.eqb n k2) eqn:E; [|exact Hget].
    apply String.eqb_eq in E. subst n.
    assert (H1 : dict_get k2 d = None) by (now apply dict_get_None).
    assert (H2 : dict_get k2 d' = None) by (apply dict_get_None; now rewrite <- Hk).
    congruence.
Qed.

End Dicts.

(** ** The dict of quotes *)

Lemma prices_from_NoDup qs : forall d,
  NoDup (keys d) -> NoDup (keys (prices_from d qs)).
Proof.
  induction qs as [|q qs IH]; intros d H; simpl; [exact H|].
  apply IH. now apply keys_set_NoDup.
Qed.

Lemma prices_from_keys qs qs' : forall d d',
  keys d = keys d' -> names qs = names qs' ->
  keys (prices_from d qs) = keys (prices_from d' qs').
Proof.
  revert qs'. induction qs as [|q qs IH]; intros [|q' qs'] d d' Hk Hn;
    simpl in *; try discriminate; [exact Hk|].
  injection Hn as Hq Hn. apply IH; [|exact Hn].
  rewrite Hq. now apply keys_set_same.
Qed.

Lemma prices_from_get n qs : forall d,
  dict_get n (prices_from d qs) = last_named n qs (dict_get n d).
Proof.
  induction qs as [|q qs IH]; intro d; simpl; [reflexivity|].
  rewrite IH, dict_get_set. reflexivity.
Qed.

(** With pairwise distinct names nothing is overwritten: the dict lists the
    quotes in the order of the exchange list. *)
Lemma prices_from_distinct qs : forall d,
  NoDup (keys d ++ names qs) -> prices_from d qs = d ++ map item_of qs.
Proof.
  induction qs as [|q qs IH]; intros d H; simpl.
  - now rewrite app_nil_r.
  - assert (Hq : ~ In (name (exchange q)) (keys d)).
    { intro Hin. apply NoDup_remove_2 in H. apply H. apply in_or_app. now left. }
    rewrite dict_set_fresh by exact Hq.
    rewrite IH.
    + rewrite <- app_assoc. reflexivity.
    + unfold keys. rewrite map_app. simpl. rewrite <- app_assoc. exact H.
Qed.

Lemma prices_of_distinct qs : NoDup (names qs) -> prices_of qs = map item_of qs.
Proof. intro H. unfold prices_of. now rewrite prices_from_distinct. Qed.

Lemma last_named_app n l1 l2 acc :
  last_named n (l1 ++ l2) acc = last_named n l2 (last_named n l1 acc).
Proof.
  revert acc. induction l1 as [|q l1 IH]; intro acc; simpl; [reflexivity|].
  apply IH.
Qed.

Lemma last_named_other n l acc :
  (forall x, In x l -> name (exchange x) <> n) -> last_named n l acc = acc.
Proof.
  revert acc. induction l as [|q l IH]; intros acc H; simpl; [reflexivity|].
  rewrite IH by (intros; apply H; now right).
  destruct (String.eqb n (name (exchange q))) eqn:E; [|reflexivity].
  apply String.eqb_eq in E. exfalso. apply (H q); [now left|now symmetry].
Qed.

(** ** The scan in terms of the quotes *)

Lemma get_price_eq ex coin base g :
  get_price ex coin base g = Ok (quote ex base g, next g).
Proof. reflexivity. Qed.

Lemma quote_loop_eq coin base exs : forall d g,
  quote_loop coin base exs d g =
  Ok (prices_from d (quotes base exs g), skip (List.length exs) g).
Proof.
  induction exs as [|ex exs IH]; intros d g; simpl; [reflexivity|].
  unfold bind. rewrite get_price_eq. apply IH.
Qed.

Lemma quotes_app base l1 l2 : forall g,
  quotes base (l1 ++ l2) g = quotes base l1 g ++ quotes base l2 (skip (List.length l1) g).
Proof.
  induction l1 as [|ex l1 IH]; intro g; simpl; [reflexivity|].
  now rewrite IH.
Qed.

Lemma quotes_exchanges base exs : forall g, map exchange (quotes base exs g) = exs.
Proof.
  induction exs as [|ex exs IH]; intro g; simpl; [reflexivity|].
  now rewrite IH.
Qed.

Lemma quotes_names base exs g : names (quotes base exs g) = map name exs.
Proof.
  unfold names. rewrite <- (quotes_exchanges base exs g) at 2.
  now rewrite map_map.
Qed.

Lemma scan_coin_eq self thr coin best g :
  scan_coin self thr coin best g =
  (base <~ dict_index coin (base_prices self) ;;
   cand <~ evaluate coin (prices_of (quotes base (exchanges self) g)) ;;
   Ok (if Qltb (snd best) (opp_profit_pct cand)
          && Qle_bool thr (opp_profit_pct cand)
       then (Some cand, opp_profit_pct cand) else best,
       skip (List.length (exchanges self)) g)).
Proof.
  unfold scan_coin, bind, lift.
  destruct (dict_index coin (base_prices self)) as [base|e]; simpl; [|reflexivity].
  rewrite quote_loop_eq. fold (prices_of (quotes base (exchanges self) g)).
  destruct (evaluate coin (prices_of (quotes base (exchanges self) g))) as [cand|e];
    simpl; [|reflexivity].
  destruct (Qltb (snd best) (opp_profit_pct cand)
            && Qle_bool thr (opp_profit_pct cand)); reflexivity.
Qed.

(** What a candidate is made of. *)
Lemma evaluate_inv coin prices o :
  evaluate coin prices = Ok o ->
  exists lo hi,
    lowest_highest prices = Ok (lo, hi) /\
    opp_coin o = coin /\
    opp_buy_ex o = exchange (snd lo) /\ opp_sell_ex o = exchange (snd hi) /\
    opp_buy_price o = price (snd lo) /\ opp_sell_price o = price (snd hi) /\
    opp_buy_fee o = calculate_fee (opp_buy_ex o) (opp_buy_price o) /\
    opp_sell_fee o = calculate_fee (opp_sell_ex o) (opp_sell_price o) /\
    ~ opp_buy_price o + opp_buy_fee o == 0 /\
    opp_profit_pct o =
      ((opp_sell_price o - opp_sell_fee o) - (opp_buy_price o + opp_buy_fee o))
      / (opp_buy_price o + opp_buy_fee o) * 100.
Proof.
  unfold evaluate.
  destruct (lowest_highest prices) as [[lo hi]|e]; simpl; [|discriminate].
  match goal with |- context [py_div ?a ?b] => destruct (py_div a b) as [r|e] eqn:E end;
    simpl; [|discriminate].
  intro H. injection H as <-. apply py_div_inv in E as [Hnz ->].
  exists lo, hi. simpl. repeat split; try reflexivity. exact Hnz.
Qed.

Lemma lowest_highest_quotes q qs :
  NoDup (names (q :: qs)) ->
  lowest_highest (prices_of (q :: qs)) =
  Ok (lowest_from (item_of q) (map item_of qs), highest_from (item_of q) (map item_of qs)).
Proof.
  intro H. rewrite prices_of_distinct by exact H. simpl.
  apply lowest_highest_cons.
Qed.

Lemma key_item_of q : key (item_of q) = price q.
Proof. reflexivity. Qed.

Lemma In_item_of x l : In x (map item_of l) -> exists q, x = item_of q /\ In q l.
Proof.
  intro H. apply in_map_iff in H as [q [<- Hq]]. now exists q.
Qed.

(** The two ends when the names are pairwise distinct: the buy side is the
    first quote of lowest price, the sell side the last quote of highest
    price, in the order of the exchange list. *)
Lemma lowest_first_listed qs l1 b l2 :
  NoDup (names qs) -> qs = l1 ++ b :: l2 ->
  (forall x, In x l1 -> price b < price x) ->
  (forall x, In x l2 -> price b <= price x) ->
  exists hi, lowest_highest (prices_of qs) = Ok (item_of b, hi).
Proof.
  intros Hnd -> H1 H2. destruct l1 as [|a l1]; simpl in *.
  - rewrite lowest_highest_quotes by exact Hnd. eexists. f_equal. f_equal.
    apply lowest_from_keep. intros x Hx.
    apply In_item_of in Hx as [q [-> Hq]]. rewrite !key_item_of. auto.
  - rewrite lowest_highest_quotes by exact Hnd. eexists. f_equal. f_equal.
    rewrite map_app. simpl. apply lowest_from_first.
    + rewrite !key_item_of. apply H1. now left.
    + intros x Hx. apply In_item_of in Hx as [q [-> Hq]].
      rewrite !key_item_of. apply H1. now right.
    + intros x Hx. apply In_item_of in Hx as [q [-> Hq]].
      rewrite !key_item_of. auto.
Qed.

Lemma highest_last_listed qs l1 s l2 :
  NoDup (names qs) -> qs = l1 ++ s :: l2 ->
  (forall x, In x l1 -> price x <= price s) ->
  (forall x, In x l2 -> price x < price s) ->
  exists lo, lowest_highest (prices_of qs) = Ok (lo, item_of s).
Proof.
  intros Hnd -> H1 H2. destruct l1 as [|a l1]; simpl in *.
  - rewrite lowest_highest_quotes by exact Hnd. eexists. f_equal. f_equal.
    apply highest_from_keep. intros x Hx.
    apply In_item_of in Hx as [q [-> Hq]]. rewrite !key_item_of. auto.
  - rewrite lowest_highest_quotes by exact Hnd. eexists. f_equal. f_equal.
    rewrite map_app. simpl. apply highest_from_last.
    + rewrite !key_item_of. apply H1. now left.
    + intros x Hx. apply In_item_of in Hx as [q [-> Hq]].
      rewrite !key_item_of. apply H1. now right.
    + intros x Hx. apply In_item_of in Hx as [q [-> Hq]].
      rewrite !key_item_of. auto.
Qed.


(** ** Exchanges that share a name *)

Lemma last_named_overwritten n Q1 q1 Q2 q2 Q3 acc :
  name (exchange q1) = name (exchange q2) ->
  last_named n (Q1 ++ q1 :: Q2 ++ q2 :: Q3) acc =
  last_named n Q3
    (if String.eqb n (name (exchange q2)) then Some q2
     else last_named n Q2 (last_named n Q1 acc)).
Proof.
  intro E. rewrite last_named_app. simpl. rewrite last_named_app. simpl.
  rewrite E. destruct (String.eqb n (name (exchange q2))); reflexivity.
Qed.

(** A quote that is followed by a quote of the same name leaves no trace in
    the dict. *)
Lemma prices_from_overwritten d Q1 q1 q1' Q2 q2 Q3 :
  NoDup (keys d) ->
  name (exchange q1) = name (exchange q2) ->
  name (exchange q1') = name (exchange q2) ->
  prices_from d (Q1 ++ q1 :: Q2 ++ q2 :: Q3) =
  prices_from d (Q1 ++ q1' :: Q2 ++ q2 :: Q3).
Proof.
  intros Hnd E E'. apply dict_ext.
  - now apply prices_from_NoDup.
  - apply prices_from_keys; [reflexivity|].
    unfold names. rewrite !map_app. simpl. now rewrite E, E'.
  - intro n. rewrite !prices_from_get.
    now rewrite !last_named_overwritten.
Qed.

Lemma prices_from_last_named d l1 q l2 :
  (forall x, In x l2 -> name (exchange x) <> name (exchange q)) ->
  dict_get (name (exchange q)) (prices_from d (l1 ++ q :: l2)) = Some q.
Proof.
  intro H. rewrite prices_from_get, last_named_app. simpl.
  rewrite String.eqb_refl. now apply last_named_other.
Qed.

Lemma scan_loop_exchanges self self' thr cs :
  base_prices self' = base_prices self ->
  List.length (exchanges self') = List.length (exchanges self) ->
  (forall base g, prices_of (quotes base (exchanges self') g) =
                  prices_of (quotes base (exchanges self) g)) ->
  forall best g, scan_loop self' thr cs best g = scan_loop self thr cs best g.
Proof.
  intros Hbp Hlen Hprices.
  induction cs as [|coin cs IH]; intros best g; simpl; [reflexivity|].
  unfold bind. rewrite !scan_coin_eq, Hbp, Hlen.
  destruct (dict_index coin (base_prices self)) as [base|e]; simpl; [|reflexivity].
  rewrite Hprices.
  destruct (evaluate coin (prices_of (quotes base (exchanges self) g))) as [cand|e];
    simpl; [|reflexivity].
  apply IH.
Qed.

(** ** The loop over the coins *)

Lemma candidates_cons self coin cs g :
  candidates self (coin :: cs) g =
  (base <~ dict_index coin (base_prices self) ;;
   cand <~ evaluate coin (prices_of (quotes base (exchanges self) g)) ;;
   r <~ candidates self cs (skip (List.length (exchanges self)) g) ;;
   Ok (cand :: fst r, snd r)).
Proof.
  simpl. unfold bind, lift.
  destruct (dict_index coin (base_prices self)) as [base|e]; cbn [rbind]; [|reflexivity].
  rewrite quote_loop_eq. fold (prices_of (quotes base (exchanges self) g)).
  destruct (evaluate coin (prices_of (quotes base (exchanges self) g))) as [cand|e];
    cbn [rbind]; [|reflexivity].
  destruct (candidates self cs (skip (List.length (exchanges self)) g)) as [[r g']|e];
    reflexivity.
Qed.

Lemma scan_loop_candidates self thr cs : forall best g,
  scan_loop self thr cs best g =
  (r <~ candidates self cs g ;;
   Ok (fold_left (update_best thr) (fst r) best, snd r)).
Proof.
  induction cs as [|coin cs IH]; intros best g; [reflexivity|].
  rewrite candidates_cons. cbn [scan_loop].
  unfold bind. rewrite scan_coin_eq.
  destruct (dict_index coin (base_prices self)) as [base|e]; cbn [rbind]; [|reflexivity].
  destruct (evaluate coin (prices_of (quotes base (exchanges self) g))) as [cand|e];
    cbn [rbind]; [|reflexivity].
  rewrite IH.
  destruct (candidates self cs (skip (List.length (exchanges self)) g)) as [[cands g']|e];
    reflexivity.
Qed.

Lemma find_candidates self thr g :
  find_arbitrage_opportunity self thr g =
  (r <~ candidates self (coins self) g ;;
   Ok (fst (fold_left (update_best thr) (fst r) (None, 0)), snd r)).
Proof.
  unfold find_arbitrage_opportunity, bind. rewrite scan_loop_candidates.
  destruct (candidates self (coins self) g) as [[cands g']|e]; reflexivity.
Qed.

Lemma update_best_inv thr seen best x :
  scan_inv thr seen best -> scan_inv thr (seen ++ [x]) (update_best thr best x).
Proof.
  destruct best as [[o|] bp]; unfold scan_inv, update_best; simpl.
  - intros (-> & [Hpos Hthr] & l1 & l2 & -> & H1 & H2).
    destruct (Qltb (opp_profit_pct o) (opp_profit_pct x)) eqn:E1; simpl.
    + apply Qltb_lt in E1.
      destruct (Qle_bool thr (opp_profit_pct x)) eqn:E2; simpl.
      * apply Qle_bool_iff in E2. split; [reflexivity|]. split; [split; lra|].
        exists (l1 ++ o :: l2), []. split; [reflexivity|]. split; [|intros ? []].
        intros y Hy. apply in_app_or in Hy as [Hy|[<-|Hy]].
        -- specialize (H1 y Hy). lra.
        -- exact E1.
        -- specialize (H2 y Hy). lra.
      * assert (Hlt : opp_profit_pct x < thr).
        { apply Qnot_le_lt. intro Hle. apply Qle_bool_iff in Hle. congruence. }
        split; [reflexivity|]. split; [split; assumption|].
        exists l1, (l2 ++ [x]). split; [now rewrite <- app_assoc|]. split; [exact H1|].
        intros y Hy. apply in_app_or in Hy as [Hy|[<-|[]]]; [auto|lra].
    + apply Qltb_ge in E1.
      split; [reflexivity|]. split; [split; assumption|].
      exists l1, (l2 ++ [x]). split; [now rewrite <- app_assoc|]. split; [exact H1|].
      intros y Hy. apply in_app_or in Hy as [Hy|[<-|[]]]; [auto|exact E1].
  - intros [-> Hnone].
    destruct (Qltb 0 (opp_profit_pct x)) eqn:E1; simpl.
    + apply Qltb_lt in E1.
      destruct (Qle_bool thr (opp_profit_pct x)) eqn:E2; simpl.
      * apply Qle_bool_iff in E2. split; [reflexivity|]. split; [split; assumption|].
        exists seen, []. split; [reflexivity|]. split; [|intros ? []].
        intros y Hy. specialize (Hnone y Hy). unfold qualifies in Hnone.
        destruct (Qlt_le_dec 0 (opp_profit_pct y)) as [Hy0|Hy0]; [|lra].
        destruct (Qlt_le_dec (opp_profit_pct y) thr) as [Hyt|Hyt]; [lra|].
        exfalso. apply Hnone. split; assumption.
      * split; [reflexivity|].
        intros y Hy. apply in_app_or in Hy as [Hy|[<-|[]]]; [auto|].
        intros [_ Hq]. apply Qle_bool_iff in Hq. congruence.
    + apply Qltb_ge in E1. split; [reflexivity|].
      intros y Hy. apply in_app_or in Hy as [Hy|[<-|[]]]; [auto|].
      intros [Hq _]. lra.
Qed.

Lemma fold_update_best_inv thr cands :
  scan_inv thr cands (fold_left (update_best thr) cands (None, 0)).
Proof.
  induction cands as [|x cands IH] using rev_ind.
  - simpl. split; [reflexivity|intros ? []].
  - rewrite fold_left_app. simpl. now apply update_best_inv.
Qed.

(** The first candidate of highest profit percentage is unique. *)
Lemma first_best_unique cands o o' :
  first_best cands o -> first_best cands o' -> o = o'.
Proof.
  intros (l1 & l2 & -> & H1 & H2) (l1' & l2' & E & H1' & H2').
  revert l1' E H1'. induction l1 as [|a l1 IH]; intros [|a' l1'] E H1'; simpl in E.
  - congruence.
  - injection E as <- E.
    assert (In o' l2) by (rewrite E; apply in_elt).
    specialize (H1' o (or_introl eq_refl)). specialize (H2 o' H). lra.
  - injection E as -> E.
    assert (In o l2') by (rewrite <- E; apply in_elt).
    specialize (H1 o' (or_introl eq_refl)). specialize (H2' o H). lra.
  - injection E as <- E. apply (IH (fun x Hx => H1 x (or_intror Hx)) l1' E).
    intros x Hx. apply H1'. now right.
Qed.

Lemma first_best_In cands o : first_best cands o -> In o cands.
Proof. intros (l1 & l2 & -> & _). apply in_elt. Qed.

(** ** Arithmetic of fees and profit *)

Lemma Qdiv_pos a b : 0 < a -> 0 < b -> 0 < a / b.
Proof. intros. apply Qlt_shift_div_l; [assumption|]. lra. Qed.


(** The net profit of a trade is the trade amount, grossed up by the buy
    fee, times the profit percentage of the opportunity. *)
Lemma net_profit_formula cap bp sp f sf :
  ~ bp + bp * (f / 100) == 0 ->
  (sp * (cap * (1 # 10) / bp) - sf * (cap * (1 # 10) / bp))
  - (bp * (cap * (1 # 10) / bp) + (bp * (f / 100)) * (cap * (1 # 10) / bp))
  == (cap * (1 # 10) * ((100 + f) / 100))
     * ((((sp - sf) - (bp + bp * (f / 100))) / (bp + bp * (f / 100)) * 100) / 100).
Proof.
  intro Hd.
  assert (Hbp : ~ bp == 0).
  { intro H. apply Hd. rewrite H. ring. }
  field. split; [|exact Hbp].
  intro H. apply Hd.
  assert (E : bp + bp * (f / 100) == (bp * 100 + bp * f) / 100) by field.
  rewrite E, H. reflexivity.
Qed.

Lemma net_profit_pos cap f pct :
  0 < cap -> - (100) < f -> 0 < pct ->
  0 < (cap * (1 # 10) * ((100 + f) / 100)) * (pct / 100).
Proof.
  intros Hc Hf Hp.
  assert (0 < (100 + f) / 100) by (apply Qdiv_pos; lra).
  assert (0 < pct / 100) by (apply Qdiv_pos; lra).
  apply Qmult_lt_0_compat; [|assumption].
  apply Qmult_lt_0_compat; [lra|assumption].
Qed.


Lemma draws_skip n : forall g, draws (skip n g) = draws g.
Proof.
  induction n as [|n IH]; intro g; simpl; [reflexivity|].
  now rewrite IH.
Qed.

Lemma unit_draws_skip n g : unit_draws g -> unit_draws (skip n g).
Proof. unfold unit_draws. now rewrite draws_skip. Qed.

Lemma dict_get_keys {V} (k : string) (d : dict V) :
  In k (keys d) -> exists v, dict_get k d = Some v /\ In (k, v) d.
Proof.
  induction d as [|[k' v'] d IH]; simpl; [intros []|].
  intro H. destruct (String.eqb k k') eqn:E.
  - apply String.eqb_eq in E. subst. exists v'. split; [reflexivity|now left].
  - apply String.eqb_neq in E. destruct H as [H|H]; [congruence|].
    destruct (IH H) as (v & Hv & Hin). exists v. split; [exact Hv|now right].
Qed.

(** ** One exchange only *)





(** ** Where a returned opportunity comes from *)

Lemma sorted_from_In x l : forall acc,
  In x (fold_left (fun a y => insert_item y a) l acc) <-> In x l \/ In x acc.
Proof.
  induction l as [|y l IH]; intro acc; simpl.
  - intuition.
  - rewrite IH, insert_item_In. intuition.
Qed.

Lemma index_first_In {A} (l : list A) (x : A) : index_first l = Ok x -> In x l.
Proof.
  destruct l; simpl; [discriminate|]. intro H. injection H as <-. now left.
Qed.

Lemma lowest_highest_In prices lo hi :
  lowest_highest prices = Ok (lo, hi) -> In lo prices /\ In hi prices.
Proof.
  unfold lowest_highest, sorted.
  destruct (index_first _) as [f|] eqn:Ef; simpl; [|discriminate].
  destruct (index_last _) as [h|] eqn:Eh; simpl; [|discriminate].
  intro H. injection H as <- <-.
  apply index_first_In, sorted_from_In in Ef.
  apply index_last_In, sorted_from_In in Eh.
  simpl in Ef, Eh. intuition.
Qed.

Lemma dict_set_In {V} (a k : string) (b v : V) (d : dict V) :
  In (a, b) (dict_set k v d) -> In (a, b) d \/ b = v.
Proof.
  induction d as [|[k' v'] d IH]; simpl.
  - intros [H|[]]. injection H as _ <-. now right.
  - destruct (String.eqb k k'); simpl.
    + intros [H|H]; [injection H as _ <-; now right|left; now right].
    + intros [H|H]; [left; now left|]. destruct (IH H); [left; now right|now right].
Qed.

Lemma prices_from_In n q qs : forall d,
  In (n, q) (prices_from d qs) -> In (n, q) d \/ In q qs.
Proof.
  induction qs as [|q' qs IH]; intros d H; simpl in *; [now left|].
  destruct (IH _ H) as [H'|H']; [|right; now right].
  apply dict_set_In in H' as [H'|H']; [now left|right; now left].
Qed.

(** A candidate buys at a listed exchange. *)
Lemma evaluate_buy_listed coin base exs g o :
  evaluate coin (prices_of (quotes base exs g)) = Ok o -> In (opp_buy_ex o) exs.
Proof.
  intro H. apply evaluate_inv in H as (lo & hi & E & _ & Hbuy & _).
  apply lowest_highest_In in E as [Hlo _]. destruct lo as [n q].
  apply prices_from_In in Hlo as [[]|Hq].
  rewrite Hbuy. simpl. rewrite <- (quotes_exchanges base exs g). now apply in_map.
Qed.

Lemma candidates_In self cs o : forall g g' cands,
  candidates self cs g = Ok (cands, g') -> In o cands ->
  exists coin base g0,
    evaluate coin (prices_of (quotes base (exchanges self) g0)) = Ok o.
Proof.
  induction cs as [|coin cs IH]; intros g g' cands.
  - intro H. injection H as <- _. intros [].
  - rewrite candidates_cons.
    destruct (dict_index coin (base_prices self)) as [base|]; cbn [rbind]; [|discriminate].
    destruct (evaluate coin (prices_of (quotes base (exchanges self) g)))
      as [cand|] eqn:Ec; cbn [rbind]; [|discriminate].
    destruct (candidates self cs (skip (List.length (exchanges self)) g))
      as [[cands' g'']|] eqn:Er; cbn [rbind fst snd]; [|discriminate].
    intro H. injection H as <- _. intros [<-|Hin].
    + now exists coin, base, g.
    + eapply IH; eassumption.
Qed.

(** A returned opportunity is a candidate of the scan, and profitable. *)
Lemma find_Some self thr g g' o :
  find_arbitrage_opportunity self thr g = Ok (Some o, g') ->
  0 < opp_profit_pct o /\
  exists coin base g0,
    evaluate coin (prices_of (quotes base (exchanges self) g0)) = Ok o.
Proof.
  rewrite find_candidates.
  destruct (candidates self (coins self) g) as [[cands g1]|] eqn:Ec; simpl;
    [|discriminate].
  intro H. injection H as H _.
  pose proof (fold_update_best_inv thr cands) as Hinv.
  unfold scan_inv in Hinv. rewrite H in Hinv.
  destruct Hinv as (_ & [Hpos _] & Hfirst).
  split; [exact Hpos|].
  eapply candidates_In; [exact Ec|]. now apply first_best_In.
Qed.

(** ** Trading a returned opportunity *)

Lemma execute_candidate now self coin prices o :
  evaluate coin prices = Ok o ->
  - (100) < trading_fee (opp_buy_ex o) ->
  0 < opp_profit_pct o -> 0 < capital self ->
  exists self' tr,
    execute_trade now self (Some o) = Ok (self', Some tr) /\
    0 < tr_net_profit tr /\
    capital self' = capital self + tr_net_profit tr /\
    exchanges self' = exchanges self.
Proof.
  intros He Hfee Hpct Hcap.
  apply evaluate_inv in He
    as (lo & hi & _ & _ & _ & _ & _ & _ & Hbf & Hsf & Hnz & Hp).
  destruct o as [c bx sx bp sp pct bf sf]. simpl in *. subst bf sf.
  unfold calculate_fee in *.
  assert (Hbp : ~ bp == 0).
  { intro H. apply Hnz. rewrite H. ring. }
  unfold execute_trade. rewrite py_div_ok by exact Hbp. simpl.
  eexists. eexists. split; [reflexivity|]. simpl.
  split; [|split; reflexivity].
  rewrite net_profit_formula by exact Hnz. rewrite <- Hp.
  now apply net_profit_pos.
Qed.

(** ** The main loop *)

Lemma update_prices_loop_ok d : forall g,
  exists d' g', update_prices_loop d g = Ok (d', g').
Proof.
  induction d as [|[coin p] d IH]; intro g; simpl.
  - eexists. eexists. reflexivity.
  - unfold bind, uniform, bind, random, ret. simpl.
    destruct (IH (mkRng (draws g) (S (pos g)))) as (d' & g' & E).
    rewrite E. eexists. eexists. reflexivity.
Qed.

Lemma update_market_prices_frame self g self1 g1 :
  update_market_prices self g = Ok (self1, g1) ->
  capital self1 = capital self /\ exchanges self1 = exchanges self.
Proof.
  unfold update_market_prices, bind, ret.
  destruct (update_prices_loop (base_prices self) g) as [[bp g']|]; [|discriminate].
  intro H. injection H as <- _. split; reflexivity.
Qed.

Lemma iteration_capital now thr self g self' g' :
  0 < capital self -> Forall (fun e => 0 <= trading_fee e) (exchanges self) ->
  iteration now thr self g = Ok (self', g') ->
  capital self <= capital self' /\ exchanges self' = exchanges self.
Proof.
  intros Hcap Hfees. unfold iteration, bind.
  destruct (update_market_prices self g) as [[self1 g1]|] eqn:Eu; [|discriminate].
  apply update_market_prices_frame in Eu as [Hc1 He1].
  destruct (find_arbitrage_opportunity self1 thr g1) as [[[o|] g2]|] eqn:Ef;
    [| |discriminate].
  - apply find_Some in Ef as (Hpos & coin & base & g0 & He).
    destruct (execute_candidate now self1 coin _ o He) as (s & tr & Ex & Hnp & Hc & Hx).
    + assert (Hin := evaluate_buy_listed _ _ _ _ _ He).
      rewrite He1 in Hin. rewrite Forall_forall in Hfees.
      specialize (Hfees _ Hin). lra.
    + exact Hpos.
    + now rewrite Hc1.
    + unfold lift, ret. rewrite Ex. intro H. injection H as <- _. simpl.
      rewrite Hc, Hc1, Hx, He1. split; [lra|reflexivity].
  - unfold lift, ret. simpl. intro H. injection H as <- _. simpl.
    rewrite Hc1, He1. split; [lra|reflexivity].
Qed.

Lemma run_loop_capital clock thr n : forall i self g self' g',
  0 < capital self -> Forall (fun e => 0 <= trading_fee e) (exchanges self) ->
  run_loop clock thr n i self g = Ok (self', g') ->
  capital self <= capital self'.
Proof.
  induction n as [|n IH]; intros i self g self' g' Hcap Hfees; simpl.
  - unfold ret. intro H. injection H as <- _. lra.
  - unfold bind.
    destruct (iteration (clock i) thr self g) as [[self1 g1]|] eqn:Ei; [|discriminate].
    apply iteration_capital in Ei as [Hle Hex]; try assumption.
    intro Hrun. apply IH in Hrun.
    + lra.
    + lra.
    + now rewrite Hex.
Qed.


(** ** The two ends of any dict of quotes *)

Lemma prices_from_nonempty qs : forall d, d <> [] -> prices_from d qs <> [].
Proof.
  induction qs as [|q qs IH]; intros d Hd; simpl; [exact Hd|].
  apply IH. destruct d as [|[k v] d]; [congruence|]. simpl.
  destruct (String.eqb (name (exchange q)) k); discriminate.
Qed.

(** Whatever the names, the scan buys at the lowest and sells at the highest
    of the prices kept in the dict. *)
Lemma lowest_highest_dict qs :
  qs <> [] ->
  exists lo hi,
    lowest_highest (prices_of qs) = Ok (lo, hi) /\
    In lo (prices_of qs) /\ In hi (prices_of qs) /\
    forall x, In x (prices_of qs) -> key lo <= key x /\ key x <= key hi.
Proof.
  intro Hne. destruct qs as [|q qs]; [congruence|].
  assert (Hd : prices_of (q :: qs) <> []).
  { unfold prices_of. simpl. apply prices_from_nonempty. discriminate. }
  destruct (prices_of (q :: qs)) as [|a d]; [congruence|].
  rewrite lowest_highest_cons. eexists. eexists. split; [reflexivity|].
  split; [apply lowest_from_In|]. split; [apply highest_from_In|].
  intros x Hx. split; [now apply lowest_from_le|now apply highest_from_ge].
Qed.

(** ** The bot as constructed *)

(** The constructor establishes what the properties below assume of a
    configuration, and no method changes the exchanges. *)
Lemma init_well_formed c b :
  ArbitrageBot_init c = Ok b ->
  capital b = c /\ fees_ok b /\ coins b = keys (base_prices b).
Proof.
  intro H. injection H as <-. split; [reflexivity|]. split; [|reflexivity].
  repeat constructor; simpl; discriminate.
Qed.

(** For the bot as constructed with a positive capital, the capital never
    falls below the initial capital. *)
Lemma constructed_bot_capital clock thr n c b g b' g' :
  0 < c -> ArbitrageBot_init c = Ok b ->
  run_loop clock thr n 0 b g = Ok (b', g') ->
  c <= capital b'.
Proof.
  intros Hc Hinit Hrun.
  destruct (init_well_formed c b Hinit) as (Hcap & Hfees & _).
  rewrite <- Hcap. eapply run_loop_capital; try eassumption.
  now rewrite Hcap.
Qed.

Lemma find_raises self thr g e :
  candidates self (coins self) g = Raise e ->
  find_arbitrage_opportunity self thr g = Raise e.
Proof. intro H. now rewrite find_candidates, H. Qed.

(** * The properties of the specification *)

Ltac solve_NoDup :=
  repeat (constructor; [simpl; intuition discriminate|]); constructor.

Ltac solve_Forall_In :=
  simpl; intros ? ?;
  repeat match goal with
         | H : _ \/ _ |- _ => destruct H
         | H : False |- _ => destruct H
         | H : _ = _ |- _ => subst
         end; simpl; lra.

(** ** Ties between exchanges *)

(** C3 (amended).  With pairwise distinct exchange names, ties are resolved
    by the order of the exchange list, in opposite directions at the two
    ends: the buy side is the FIRST listed quote of lowest price, the sell
    side is the LAST listed quote of highest price.  Every candidate built
    from the quotes buys and sells at these two exchanges. *)
Theorem ties_first_lowest_last_highest
    (qs l1 l2 l3 l4 : list PriceEntry) (b s : PriceEntry) :
  NoDup (names qs) ->
  qs = l1 ++ b :: l2 ->
  (forall x, In x l1 -> price b < price x) ->
  (forall x, In x l2 -> price b <= price x) ->
  qs = l3 ++ s :: l4 ->
  (forall x, In x l3 -> price x <= price s) ->
  (forall x, In x l4 -> price x < price s) ->
  lowest_highest (prices_of qs) = Ok (item_of b, item_of s) /\
  forall coin o, evaluate coin (prices_of qs) = Ok o ->
    opp_buy_ex o = exchange b /\ opp_sell_ex o = exchange s.
Proof.
  intros Hnd Eb Hb1 Hb2 Es Hs1 Hs2.
  destruct (lowest_first_listed qs l1 b l2 Hnd Eb Hb1 Hb2) as [hi Hlo].
  destruct (highest_last_listed qs l3 s l4 Hnd Es Hs1 Hs2) as [lo Hhi].
  assert (E : lowest_highest (prices_of qs) = Ok (item_of b, item_of s)).
  { rewrite Hlo in Hhi. injection Hhi as <- ->. exact Hlo. }
  split; [exact E|].
  intros coin o Ho. apply evaluate_inv in Ho as (lo' & hi' & E' & _ & Hbuy & Hsell & _).
  rewrite E in E'. injection E' as <- <-. now rewrite Hbuy, Hsell.
Qed.

Lemma ties_first_lowest_last_highest_witness :
  lowest_highest
    (prices_of [mkEntry 90 exA; mkEntry 90 exB; mkEntry 100 exC;
                mkEntry 100 (mkExchange "D" 0 0)])
  = Ok (item_of (mkEntry 90 exA), item_of (mkEntry 100 (mkExchange "D" 0 0))).
Proof.
  apply (ties_first_lowest_last_highest
           [mkEntry 90 exA; mkEntry 90 exB; mkEntry 100 exC;
            mkEntry 100 (mkExchange "D" 0 0)]
           [] [mkEntry 90 exB; mkEntry 100 exC; mkEntry 100 (mkExchange "D" 0 0)]
           [mkEntry 90 exA; mkEntry 90 exB; mkEntry 100 exC] []
           (mkEntry 90 exA) (mkEntry 100 (mkExchange "D" 0 0))).
  - solve_NoDup.
  - reflexivity.
  - solve_Forall_In.
  - solve_Forall_In.
  - reflexivity.
  - solve_Forall_In.
  - solve_Forall_In.
Defined.

(** C3 as stated fails on the sell side: A and B both quote the highest
    price 100, A is listed first, and the scan sells at B. *)
Lemma ties_sell_side_counterexample :
  map (fun q => (name (exchange q), Qred (price q)))
      (quotes 100 (exchanges tie_bot) (constant_rng (1 # 4)))
    = [("A"%string, 100); ("B"%string, 100); ("C"%string, 90)] /\
  exists o g',
    find_arbitrage_opportunity tie_bot 1 (constant_rng (1 # 4)) = Ok (Some o, g') /\
    opp_buy_ex o = exC /\ opp_sell_ex o = exB /\ opp_sell_ex o <> exA.
Proof.
  split; [reflexivity|].
  eexists. eexists. split; [vm_compute; reflexivity|].
  simpl. repeat split. discriminate.
Qed.

(** ** Lowest and highest quote *)



(** ** Exchanges that share a name *)

(** C10.  The quotes of one coin are stored under the exchange name.  When
    two listed exchanges [e1] and [e2] have the same name and no later one
    has it, the dict holds one entry per name, the entry of that name is the
    quote of [e2], and the scan does not depend on [e1] beyond its name:
    putting any other exchange of that name in the place of [e1] changes
    neither the result nor the random draws consumed. *)
Theorem same_name_last_listed_wins
    (self : Bot) (l1 l2 l3 : list Exchange) (e1 e2 : Exchange) :
  exchanges self = l1 ++ e1 :: l2 ++ e2 :: l3 ->
  name e1 = name e2 ->
  (forall x, In x l3 -> name x <> name e2) ->
  (forall coin base g,
     exists prices,
       quote_loop coin base (exchanges self) [] g
         = Ok (prices, skip (List.length (exchanges self)) g) /\
       NoDup (keys prices) /\
       dict_get (name e2) prices
         = Some (mkEntry (quote e2 base (skip (List.length (l1 ++ e1 :: l2)) g)) e2)) /\
  (forall e1' thr g,
     name e1' = name e2 ->
     find_arbitrage_opportunity (with_exchanges self (l1 ++ e1' :: l2 ++ e2 :: l3)) thr g
       = find_arbitrage_opportunity self thr g).
Proof.
  intros Hexs Hname Hlast. split.
  - intros coin base g. eexists. split; [apply quote_loop_eq|]. split.
    + apply prices_from_NoDup. constructor.
    + rewrite Hexs.
      replace (l1 ++ e1 :: l2 ++ e2 :: l3) with ((l1 ++ e1 :: l2) ++ e2 :: l3)
        by (now rewrite <- app_assoc).
      rewrite quotes_app. simpl.
      apply (prices_from_last_named []
               (quotes base (l1 ++ e1 :: l2) g)
               (mkEntry (quote e2 base (skip (List.length (l1 ++ e1 :: l2)) g)) e2)).
      simpl. intros x Hx Ex.
      apply (Hlast (exchange x)); [|exact Ex].
      rewrite <- (quotes_exchanges base l3
                    (next (skip (List.length (l1 ++ e1 :: l2)) g))).
      now apply in_map.
  - intros e1' thr g Hname'. unfold find_arbitrage_opportunity, bind. simpl.
    rewrite (scan_loop_exchanges self); [reflexivity|reflexivity| |].
    + simpl. rewrite Hexs, !length_app. simpl. now rewrite !length_app.
    + intros base g0. simpl. rewrite Hexs. unfold prices_of.
      rewrite !quotes_app. simpl. rewrite !quotes_app. simpl.
      apply prices_from_overwritten; simpl; [constructor|assumption|assumption].
Qed.

Lemma same_name_last_listed_wins_witness :
  find_arbitrage_opportunity
    (with_exchanges
       (bot_of 10000 [exA; mkExchange "B" 1 (3 # 10); exB; exC] [("X"%string, 100)])
       ([exA] ++ mkExchange "B" 7 (1 # 2) :: [] ++ exB :: [exC]))
    1 (constant_rng (1 # 4))
  = find_arbitrage_opportunity
      (bot_of 10000 [exA; mkExchange "B" 1 (3 # 10); exB; exC] [("X"%string, 100)])
      1 (constant_rng (1 # 4)).
Proof.
  apply (same_name_last_listed_wins
           (bot_of 10000 [exA; mkExchange "B" 1 (3 # 10); exB; exC] [("X"%string, 100)])
           [exA] [] [exC] (mkExchange "B" 1 (3 # 10)) exB).
  - reflexivity.
  - reflexivity.
  - simpl. intros x [<-|[]]. discriminate.
  - reflexivity.
Defined.

(** ** The threshold *)

(** C1 (amended).  The scan keeps the first candidate of strictly highest
    profit percentage and returns it if and only if that percentage is at
    least the threshold AND strictly positive; otherwise it returns none.  A
    threshold of zero or below therefore accepts what a threshold just above
    zero accepts, and a candidate of non-positive percentage is never
    returned. *)
Theorem scan_returns_first_best_profitable
    (self : Bot) (thr : Q) (g g' : Rng) (cands : list Opportunity) :
  candidates self (coins self) g = Ok (cands, g') ->
  exists r,
    find_arbitrage_opportunity self thr g = Ok (r, g') /\
    forall o,
      r = Some o <->
      first_best cands o /\ thr <= opp_profit_pct o /\ 0 < opp_profit_pct o.
Proof.
  intro Hc. rewrite find_candidates, Hc. simpl.
  eexists. split; [reflexivity|].
  pose proof (fold_update_best_inv thr cands) as Hinv.
  unfold scan_inv in Hinv.
  destruct (fst (fold_left (update_best thr) cands (None, 0))) as [o|].
  - destruct Hinv as (_ & [Hpos Hthr] & Hfirst).
    intro o'. split.
    + intro E. injection E as <-. auto.
    + intros (Hfirst' & _). f_equal. eapply first_best_unique; eassumption.
  - destruct Hinv as [_ Hnone]. intro o'. split; [discriminate|].
    intros (Hfirst & Hthr & Hpos). exfalso.
    apply (Hnone o' (first_best_In _ _ Hfirst)). split; assumption.
Qed.

Lemma scan_returns_first_best_profitable_witness :
  exists r g' cands,
    candidates tie_bot (coins tie_bot) (constant_rng (1 # 4)) = Ok (cands, g') /\
    find_arbitrage_opportunity tie_bot 1 (constant_rng (1 # 4)) = Ok (r, g') /\
    forall o,
      r = Some o <->
      first_best cands o /\ 1 <= opp_profit_pct o /\ 0 < opp_profit_pct o.
Proof.
  destruct (candidates tie_bot (coins tie_bot) (constant_rng (1 # 4)))
    as [[cands g']|e] eqn:E; [|vm_compute in E; discriminate].
  destruct (scan_returns_first_best_profitable tie_bot 1 (constant_rng (1 # 4))
              g' cands E) as (r & Hr & Hiff).
  exists r, g', cands. split; [reflexivity|]. split; [exact Hr|exact Hiff].
Defined.

(** C1 as stated fails.  With threshold 0 the only candidate breaks even
    (0% is not below the threshold) and with threshold -5 the only candidate
    loses about 2% (not below the threshold either); both scans return
    none. *)
Lemma threshold_counterexample :
  (exists o g',
     candidates break_even_bot (coins break_even_bot) (constant_rng (1 # 4))
       = Ok ([o], g') /\
     0 <= opp_profit_pct o /\
     find_arbitrage_opportunity break_even_bot 0 (constant_rng (1 # 4))
       = Ok (None, g')) /\
  (exists o g',
     candidates losing_bot (coins losing_bot) (constant_rng (1 # 4))
       = Ok ([o], g') /\
     - (5) <= opp_profit_pct o /\
     find_arbitrage_opportunity losing_bot (- (5)) (constant_rng (1 # 4))
       = Ok (None, g')).
Proof.
  split.
  - eexists. eexists. split; [vm_compute; reflexivity|].
    split; [vm_compute; discriminate|vm_compute; reflexivity].
  - eexists. eexists. split; [vm_compute; reflexivity|].
    split; [vm_compute; discriminate|vm_compute; reflexivity].
Qed.

(** ** Construction *)

(** C2 (amended).  Construction validates nothing and never fails.
    [Exchange] stores whatever fee rate and price variation it is given,
    negative or not.  The bot stores whatever initial capital it is given;
    its exchange list and its asset list are not arguments at all but fixed
    in the constructor, four exchanges and eight assets, so an empty list
    cannot be passed. *)
Theorem construction_validates_nothing :
  (forall n fee variation,
     Exchange_init n fee variation = Ok (mkExchange n fee variation)) /\
  (forall initial_capital,
     exists b,
       ArbitrageBot_init initial_capital = Ok b /\
       capital b = initial_capital /\
       exchanges b = default_exchanges /\ List.length (exchanges b) = 4%nat /\
       base_prices b = default_base_prices /\
       coins b = keys (base_prices b) /\ List.length (coins b) = 8%nat).
Proof.
  split.
  - reflexivity.
  - intro c. eexists. split; [reflexivity|]. simpl. repeat split.
Qed.

(** C2 as stated fails: a negative fee rate, a negative price variation and
    a non-positive initial capital are all accepted and stored. *)
Lemma construction_counterexample :
  (exists e,
     Exchange_init "X" (- (1)) (- (1)) = Ok e /\
     trading_fee e < 0 /\ price_variation e < 0) /\
  (exists b, ArbitrageBot_init (- (5)) = Ok b /\ capital b < 0) /\
  (exists b, ArbitrageBot_init 0 = Ok b /\ capital b == 0).
Proof.
  split; [|split]; eexists; (split; [reflexivity|]); simpl.
  - split; reflexivity.
  - reflexivity.
  - reflexivity.
Qed.

(** ** The ledger *)

(** C8.  Without an opportunity, [execute_trade] returns none and only
    counts one more missed trade: capital, cumulative profit, the count of
    successful trades and the trade history are unchanged (and so are the
    exchanges and the base prices). *)
Theorem no_opportunity_only_counts_a_miss (now : string) (self : Bot) :
  exists self',
    execute_trade now self None = Ok (self', None) /\
    failed_trades self' = (failed_trades self + 1)%Z /\
    capital self' = capital self /\
    total_profit self' = total_profit self /\
    successful_trades self' = successful_trades self /\
    trades self' = trades self /\
    exchanges self' = exchanges self /\
    base_prices self' = base_prices self /\
    coins self' = coins self.
Proof.
  eexists. split; [reflexivity|]. simpl. repeat split.
Qed.



(** ** The overall summary *)

(** C9.  The summary fails only on its success-rate line, when no iteration
    was counted.  Otherwise it is printed, with the ROI line exactly when
    capital minus total profit is strictly positive and the average line
    exactly when a trade succeeded; the two guarded divisions never raise,
    a line whose guard fails is left out. *)
Theorem summary_guards (self : Bot) :
  print_overall_summary self =
  (if (successful_trades self + failed_trades self =? 0)%Z
   then Raise ZeroDivisionError
   else Ok (mkSummary
              (successful_trades self + failed_trades self)
              (successful_trades self) (failed_trades self)
              (inject_Z (successful_trades self)
               / inject_Z (successful_trades self + failed_trades self) * 100)
              (total_profit self) (capital self)
              (if Qltb 0 (capital self - total_profit self)
               then Some (total_profit self / (capital self - total_profit self) * 100)
               else None)
              (if (0 <? successful_trades self)%Z
               then Some (total_profit self / inject_Z (successful_trades self))
               else None))) /\
  (forall s, print_overall_summary self = Ok s ->
     (sum_roi s <> None <-> 0 < capital self - total_profit self) /\
     (sum_avg_profit s <> None <-> (0 < successful_trades self)%Z)).
Proof.
  assert (E : print_overall_summary self =
    (if (successful_trades self + failed_trades self =? 0)%Z
     then Raise ZeroDivisionError
     else Ok (mkSummary
              (successful_trades self + failed_trades self)
              (successful_trades self) (failed_trades self)
              (inject_Z (successful_trades self)
               / inject_Z (successful_trades self + failed_trades self) * 100)
              (total_profit self) (capital self)
              (if Qltb 0 (capital self - total_profit self)
               then Some (total_profit self / (capital self - total_profit self) * 100)
               else None)
              (if (0 <? successful_trades self)%Z
               then Some (total_profit self / inject_Z (successful_trades self))
               else None)))).
  { unfold print_overall_summary.
    destruct (successful_trades self + failed_trades self =? 0)%Z eqn:Et.
    - apply Z.eqb_eq in Et. rewrite Et. reflexivity.
    - apply Z.eqb_neq in Et. rewrite py_div_ok; simpl.
      2:{ intro H. apply Et. unfold Qeq in H. simpl in H. lia. }
      destruct (Qltb 0 (capital self - total_profit self)) eqn:Er.
      + apply Qltb_lt in Er. rewrite py_div_ok by lra. simpl.
        destruct (0 <? successful_trades self)%Z eqn:Es; [|reflexivity].
        apply Z.ltb_lt in Es. rewrite py_div_ok; [reflexivity|].
        intro H. unfold Qeq in H. simpl in H. lia.
      + simpl.
        destruct (0 <? successful_trades self)%Z eqn:Es; [|reflexivity].
        apply Z.ltb_lt in Es. rewrite py_div_ok; [reflexivity|].
        intro H. unfold Qeq in H. simpl in H. lia. }
  split; [exact E|].
  intros s Hs. rewrite E in Hs.
  destruct (successful_trades self + failed_trades self =? 0)%Z; [discriminate|].
  injection Hs as <-. simpl. split.
  - destruct (Qltb 0 (capital self - total_profit self)) eqn:Er.
    + apply Qltb_lt in Er. split; [auto|discriminate].
    + apply Qltb_ge in Er. split; [congruence|lra].
  - destruct (0 <? successful_trades self)%Z eqn:Es.
    + apply Z.ltb_lt in Es. split; [auto|discriminate].
    + apply Z.ltb_ge in Es. split; [congruence|lia].
Qed.

Lemma summary_guards_witness :
  exists s,
    print_overall_summary missing_bot = Ok s /\
    sum_roi s = None /\ sum_avg_profit s = None /\
    (sum_roi s <> None <-> 0 < capital missing_bot - total_profit missing_bot) /\
    (sum_avg_profit s <> None <-> (0 < successful_trades missing_bot)%Z).
Proof.
  eexists. split; [reflexivity|]. split; [reflexivity|]. split; [reflexivity|].
  apply (proj2 (summary_guards missing_bot)). reflexivity.
Defined.

(** ** One exchange only *)




(** ** Capital never decreases *)



(** * Further properties of the code *)

(** ** Quotes and fees *)

Lemma skip_add n : forall m g, skip (n + m) g = skip m (skip n g).
Proof.
  induction n as [|n IH]; intros m g; simpl; [reflexivity|]. apply IH.
Qed.

Lemma pos_skip n : forall g, pos (skip n g) = (n + pos g)%nat.
Proof.
  induction n as [|n IH]; intro g; simpl; [reflexivity|].
  rewrite IH. simpl. lia.
Qed.

Lemma Qmult_le_compat_l x y z : 0 <= z -> x <= y -> z * x <= z * y.
Proof.
  intros Hz Hxy. rewrite (Qmult_comm z x), (Qmult_comm z y).
  now apply Qmult_le_compat_r.
Qed.

Lemma quote_bounds e base g :
  0 <= base -> 0 <= price_variation e ->
  0 <= draws g (pos g) -> draws g (pos g) < 1 ->
  base * (1 - price_variation e) <= quote e base g /\
  quote e base g <= base * (1 + price_variation e).
Proof.
  intros Hb Hv Hr0 Hr1. unfold quote.
  set (v := price_variation e) in *. set (r := draws g (pos g)) in *.
  assert (Ht0 : 0 <= (v - - v) * r) by (apply Qmult_le_0_compat; lra).
  assert (Ht1 : (v - - v) * r <= (v - - v) * 1).
  { apply Qmult_le_compat_l; lra. }
  split.
  - setoid_replace (base * (1 + (- v + (v - - v) * r)))
      with (base * (1 - v) + base * ((v - - v) * r)) by ring.
    assert (0 <= base * ((v - - v) * r)) by (apply Qmult_le_0_compat; assumption).
    lra.
  - setoid_replace (base * (1 + v))
      with (base * (1 + (- v + (v - - v) * r)) + base * ((v - - v) * 1 - (v - - v) * r))
      by ring.
    assert (0 <= base * ((v - - v) * 1 - (v - - v) * r))
      by (apply Qmult_le_0_compat; lra).
    lra.
Qed.

(** X1.  A quote stays within the price variation of the exchange around the
    base price, and an exchange without variation quotes the base price. *)
Theorem get_price_within_variation (ex : Exchange) (coin : string) (base : Q) (g : Rng) :
  0 <= base -> 0 <= price_variation ex ->
  0 <= draws g (pos g) -> draws g (pos g) < 1 ->
  exists p,
    get_price ex coin base g = Ok (p, next g) /\
    base * (1 - price_variation ex) <= p /\
    p <= base * (1 + price_variation ex) /\
    (price_variation ex == 0 -> p == base).
Proof.
  intros Hb Hv Hr0 Hr1. exists (quote ex base g).
  split; [apply get_price_eq|].
  destruct (quote_bounds ex base g Hb Hv Hr0 Hr1) as [Hlo Hhi].
  split; [exact Hlo|]. split; [exact Hhi|].
  intro Hz. unfold quote. rewrite Hz. ring.
Qed.

Lemma get_price_within_variation_witness :
  exists p,
    get_price exC "X" 100 (constant_rng (1 # 4)) = Ok (p, next (constant_rng (1 # 4))) /\
    100 * (1 - (2 # 10)) <= p /\ p <= 100 * (1 + (2 # 10)).
Proof.
  destruct (get_price_within_variation exC "X" 100 (constant_rng (1 # 4)))
    as (p & E & Hlo & Hhi & _); try (simpl; discriminate); [reflexivity|].
  exists p. split; [exact E|]. split; [exact Hlo|exact Hhi].
Defined.



(** ** The market update *)

Lemma update_prices_loop_spec d : forall g,
  unit_draws g ->
  exists d',
    update_prices_loop d g = Ok (d', skip (List.length d) g) /\
    Forall2 (fun kv kv' => fst kv' = fst kv /\ small_change (snd kv) (snd kv')) d d'.
Proof.
  induction d as [|[coin p] d IH]; intros g Hg; simpl.
  - exists []. split; [reflexivity|constructor].
  - destruct (IH (next g) (unit_draws_skip 1 g Hg)) as (d' & E & Hall).
    unfold bind, uniform, bind, random, ret. fold (next g). rewrite E.
    eexists. split; [reflexivity|]. constructor; [|exact Hall].
    simpl. split; [reflexivity|].
    exists (- (5 # 1000) + ((5 # 1000) - - (5 # 1000)) * draws g (pos g)).
    destruct (Hg (pos g)) as [H0 H1].
    split; [lra|]. split; [lra|reflexivity].
Qed.

Lemma small_change_pos p p' : small_change p p' -> 0 < p -> 0 < p'.
Proof.
  intros (m & Hlo & Hhi & ->) Hp. apply Qmult_lt_0_compat; lra.
Qed.

Lemma Forall2_keys (d d' : dict Q) :
  Forall2 (fun kv kv' => fst kv' = fst kv /\ small_change (snd kv) (snd kv')) d d' ->
  keys d' = keys d.
Proof.
  induction 1 as [|[k v] [k' v'] d d' [Hk _] _ IH]; simpl in *; [reflexivity|].
  now rewrite Hk, IH.
Qed.

Lemma Forall2_positive (d d' : dict Q) :
  Forall2 (fun kv kv' => fst kv' = fst kv /\ small_change (snd kv) (snd kv')) d d' ->
  (forall c p, In (c, p) d -> 0 < p) -> forall c p, In (c, p) d' -> 0 < p.
Proof.
  induction 1 as [|[k v] [k' v'] d d' [Hk Hs] _ IH]; simpl in *; intros Hpos c p.
  - intros [].
  - intros [H|H].
    + injection H as <- <-. apply (small_change_pos v v' Hs). apply (Hpos k). now left.
    + apply (IH (fun c p Hin => Hpos c p (or_intror Hin)) c p H).
Qed.

(** X3.  A market update never fails and draws once per coin.  It keeps the
    coins and their order, moves every base price by a factor between 0.995
    and 1.005, so positive prices stay positive, and touches nothing else of
    the bot. *)
Theorem update_market_prices_spec (self : Bot) (g : Rng) :
  unit_draws g ->
  exists self',
    update_market_prices self g
      = Ok (self', skip (List.length (base_prices self)) g) /\
    keys (base_prices self') = keys (base_prices self) /\
    Forall2 (fun kv kv' => fst kv' = fst kv /\ small_change (snd kv) (snd kv'))
            (base_prices self) (base_prices self') /\
    ((forall c p, In (c, p) (base_prices self) -> 0 < p) ->
     forall c p, In (c, p) (base_prices self') -> 0 < p) /\
    capital self' = capital self /\ exchanges self' = exchanges self /\
    coins self' = coins self /\ trades self' = trades self /\
    total_profit self' = total_profit self /\
    successful_trades self' = successful_trades self /\
    failed_trades self' = failed_trades self.
Proof.
  intro Hg.
  destruct (update_prices_loop_spec (base_prices self) g Hg) as (d' & E & Hall).
  unfold update_market_prices, bind, ret. rewrite E.
  eexists. split; [reflexivity|]. simpl.
  split; [now apply Forall2_keys|]. split; [exact Hall|].
  split; [now apply Forall2_positive|]. repeat split.
Qed.

Lemma update_market_prices_spec_witness :
  exists self',
    update_market_prices main_bot (constant_rng (1 # 4))
      = Ok (self', skip 8 (constant_rng (1 # 4))) /\
    keys (base_prices self') = keys (base_prices main_bot) /\
    capital self' = capital main_bot.
Proof.
  destruct (update_market_prices_spec main_bot (constant_rng (1 # 4)))
    as (self' & E & Hk & _ & _ & Hc & _).
  - intro n. simpl. split; [discriminate|reflexivity].
  - exists self'. split; [exact E|]. split; [exact Hk|exact Hc].
Defined.

(** ** How a scan can end *)

Lemma quotes_nonempty base exs g : exs <> [] -> quotes base exs g <> [].
Proof. destruct exs; [congruence|discriminate]. Qed.


Lemma evaluate_outcome coin qs :
  qs <> [] ->
  (exists o, evaluate coin (prices_of qs) = Ok o) \/
  evaluate coin (prices_of qs) = Raise ZeroDivisionError.
Proof.
  intro Hne. destruct (lowest_highest_dict qs Hne) as (lo & hi & E & _).
  unfold evaluate. rewrite E. cbn [rbind fst snd].
  match goal with |- context [py_div ?a ?b] => destruct (Qeq_dec b 0) as [Hz|Hnz] end.
  - right. now rewrite py_div_zero.
  - left. rewrite py_div_ok by exact Hnz. eexists. reflexivity.
Qed.


Lemma scan_loop_outcome self thr cs :
  exchanges self <> [] ->
  (forall c, In c cs -> In c (keys (base_prices self))) ->
  forall best g,
    (exists best',
       scan_loop self thr cs best g
         = Ok (best', skip (List.length cs * List.length (exchanges self)) g)) \/
    scan_loop self thr cs best g = Raise ZeroDivisionError.
Proof.
  intros Hex. induction cs as [|coin cs IH]; intros Hcs best g.
  - left. exists best. reflexivity.
  - cbn [scan_loop]. unfold bind. rewrite scan_coin_eq.
    destruct (dict_get_keys coin (base_prices self) (Hcs coin (or_introl eq_refl)))
      as (base & Hget & _).
    unfold dict_index. rewrite Hget. cbn [rbind].
    destruct (evaluate_outcome coin (quotes base (exchanges self) g)
                (quotes_nonempty base _ g Hex)) as [[o Ho]|Hz].
    + rewrite Ho. cbn [rbind].
      cbn [List.length Nat.mul]. rewrite skip_add. apply IH.
      intros c Hc. apply Hcs. now right.
    + right. now rewrite Hz.
Qed.



(** X4.  When the coins are the keys of the base prices and there is an
    exchange, a scan draws once per coin and exchange and returns, or else
    fails on the division by a net buy price of zero: it raises neither a key
    error nor an index error. *)
Theorem scan_outcome (self : Bot) (thr : Q) (g : Rng) :
  coins self = keys (base_prices self) -> exchanges self <> [] ->
  (exists r,
     find_arbitrage_opportunity self thr g
       = Ok (r, skip (List.length (coins self) * List.length (exchanges self)) g)) \/
  find_arbitrage_opportunity self thr g = Raise ZeroDivisionError.
Proof.
  intros Hcoins Hex. unfold find_arbitrage_opportunity, bind.
  destruct (scan_loop_outcome self thr (coins self) Hex) with (best := (@None Opportunity, 0)) (g := g)
    as [[best' E]|E].
  - intros c Hc. now rewrite <- Hcoins.
  - left. rewrite E. eexists. reflexivity.
  - right. now rewrite E.
Qed.

Lemma scan_outcome_witness :
  (exists r,
     find_arbitrage_opportunity tie_bot 1 (constant_rng (1 # 4))
       = Ok (r, skip (List.length (coins tie_bot) * List.length (exchanges tie_bot))
                     (constant_rng (1 # 4)))) \/
  find_arbitrage_opportunity tie_bot 1 (constant_rng (1 # 4)) = Raise ZeroDivisionError.
Proof.
  apply (scan_outcome tie_bot 1 (constant_rng (1 # 4))); [reflexivity|discriminate].
Defined.

(** X5.  Without an exchange the scan fails on an index at its first coin;
    without a coin it returns none and draws nothing. *)
Theorem scan_of_empty_lists (self : Bot) (thr : Q) (g : Rng) :
  (exchanges self = [] -> coins self <> [] ->
   coins self = keys (base_prices self) ->
   find_arbitrage_opportunity self thr g = Raise IndexError) /\
  (coins self = [] -> find_arbitrage_opportunity self thr g = Ok (None, g)).
Proof.
  split.
  - intros Hex Hne Hcoins. unfold find_arbitrage_opportunity, bind.
    destruct (coins self) as [|coin cs] eqn:Ec; [congruence|].
    cbn [scan_loop]. unfold bind. rewrite scan_coin_eq, Hex.
    assert (Hin : In coin (keys (base_prices self))) by (rewrite <- Hcoins; now left).
    destruct (dict_get_keys coin _ Hin) as (base & Hget & _).
    unfold dict_index. rewrite Hget. reflexivity.
  - intro Hc. unfold find_arbitrage_opportunity, bind. now rewrite Hc.
Qed.

Lemma scan_of_empty_lists_witness :
  find_arbitrage_opportunity (bot_of 10000 [] [("X"%string, 100)]) 1 (constant_rng 0)
    = Raise IndexError /\
  find_arbitrage_opportunity (bot_of 10000 [exA] []) 1 (constant_rng 0)
    = Ok (None, constant_rng 0).
Proof.
  split.
  - apply (proj1 (scan_of_empty_lists (bot_of 10000 [] [("X"%string, 100)]) 1
                    (constant_rng 0))); [reflexivity|discriminate|reflexivity].
  - apply (proj2 (scan_of_empty_lists (bot_of 10000 [exA] []) 1 (constant_rng 0))).
    reflexivity.
Defined.





(** ** The shape of a returned opportunity *)

Lemma dict_set_In_key {V} (a k : string) (b v : V) (d : dict V) :
  In (a, b) (dict_set k v d) -> In (a, b) d \/ (a = k /\ b = v).
Proof.
  induction d as [|[k' v'] d IH]; simpl.
  - intros [H|[]]. injection H as <- <-. now right.
  - destruct (String.eqb k k') eqn:E; simpl.
    + apply String.eqb_eq in E. subst k'.
      intros [H|H]; [injection H as <- <-; now right|left; now right].
    + intros [H|H]; [left; now left|].
      destruct (IH H) as [H'|H']; [left; now right|now right].
Qed.

Lemma prices_from_In_name n q qs : forall d,
  In (n, q) (prices_from d qs) ->
  In (n, q) d \/ (In q qs /\ n = name (exchange q)).
Proof.
  induction qs as [|q' qs IH]; intros d H; simpl in *; [now left|].
  destruct (IH _ H) as [H'|[H' Hn]]; [|right; split; [now right|exact Hn]].
  apply dict_set_In_key in H' as [H'|[-> ->]]; [now left|].
  right. split; [now left|reflexivity].
Qed.

Lemma dict_In_unique {V} (k : string) (v1 v2 : V) (d : dict V) :
  NoDup (keys d) -> In (k, v1) d -> In (k, v2) d -> v1 = v2.
Proof.
  intros Hnd H1 H2.
  apply (dict_get_In k v1 d Hnd) in H1. apply (dict_get_In k v2 d Hnd) in H2.
  congruence.
Qed.

Lemma candidates_In_coin self cs o : forall g g' cands,
  candidates self cs g = Ok (cands, g') -> In o cands ->
  exists coin base g0,
    In coin cs /\
    evaluate coin (prices_of (quotes base (exchanges self) g0)) = Ok o.
Proof.
  induction cs as [|coin cs IH]; intros g g' cands.
  - intro H. injection H as <- _. intros [].
  - rewrite candidates_cons.
    destruct (dict_index coin (base_prices self)) as [base|]; cbn [rbind]; [|discriminate].
    destruct (evaluate coin (prices_of (quotes base (exchanges self) g)))
      as [cand|] eqn:Ec; cbn [rbind]; [|discriminate].
    destruct (candidates self cs (skip (List.length (exchanges self)) g))
      as [[cands' g'']|] eqn:Er; cbn [rbind fst snd]; [|discriminate].
    intro H. injection H as <- _. intros [<-|Hin].
    + exists coin, base, g. split; [now left|exact Ec].
    + destruct (IH _ _ _ Er Hin) as (c & b & g0 & Hc & He).
      exists c, b, g0. split; [now right|exact He].
Qed.

(** What the scan has checked of the opportunity it returns. *)
Lemma find_Some_checked self thr g g' o :
  find_arbitrage_opportunity self thr g = Ok (Some o, g') ->
  0 < opp_profit_pct o /\ thr <= opp_profit_pct o /\
  exists coin base g0,
    In coin (coins self) /\
    evaluate coin (prices_of (quotes base (exchanges self) g0)) = Ok o.
Proof.
  rewrite find_candidates.
  destruct (candidates self (coins self) g) as [[cands g1]|] eqn:Ec; simpl;
    [|discriminate].
  intro H. injection H as H _.
  pose proof (fold_update_best_inv thr cands) as Hinv.
  unfold scan_inv in Hinv. rewrite H in Hinv.
  destruct Hinv as (_ & [Hpos Hthr] & Hfirst).
  split; [exact Hpos|]. split; [exact Hthr|].
  eapply candidates_In_coin; [exact Ec|]. now apply first_best_In.
Qed.

(** At equal prices and with fee rates that are not negative nothing is
    gained. *)
Lemma no_profit_at_equal_prices bp sp fb fs :
  0 <= fb -> 0 <= fs -> sp == bp -> ~ bp + bp * (fb / 100) == 0 ->
  ((sp - sp * (fs / 100)) - (bp + bp * (fb / 100))) / (bp + bp * (fb / 100)) * 100 <= 0.
Proof.
  intros Hfb Hfs Hsp Hd.
  assert (Hbp : ~ bp == 0).
  { intro H. apply Hd. rewrite H. ring. }
  assert (E : ((sp - sp * (fs / 100)) - (bp + bp * (fb / 100)))
              / (bp + bp * (fb / 100)) * 100
              == - ((100 * (fs + fb)) / (100 + fb))).
  { rewrite Hsp. field. split; [lra|].
    intro H. apply Hd.
    assert (E' : bp + bp * (fb / 100) == (bp * 100 + bp * fb) / 100) by field.
    rewrite E', H. reflexivity. }
  rewrite E.
  assert (0 <= (100 * (fs + fb)) / (100 + fb)) by (apply Qle_shift_div_l; lra).
  lra.
Qed.

(** X7.  A returned opportunity is for a coin of the bot, buys and sells at
    listed exchanges, buys no higher than it sells, carries the two fees of
    these exchanges on these prices and meets the threshold.  When no fee
    rate is negative it buys strictly lower than it sells, at two exchanges
    of different names. *)
Theorem returned_opportunity_shape (self : Bot) (thr : Q) (g g' : Rng) (o : Opportunity) :
  find_arbitrage_opportunity self thr g = Ok (Some o, g') ->
  In (opp_coin o) (coins self) /\
  In (opp_buy_ex o) (exchanges self) /\ In (opp_sell_ex o) (exchanges self) /\
  opp_buy_price o <= opp_sell_price o /\
  opp_buy_fee o = calculate_fee (opp_buy_ex o) (opp_buy_price o) /\
  opp_sell_fee o = calculate_fee (opp_sell_ex o) (opp_sell_price o) /\
  thr <= opp_profit_pct o /\
  (fees_ok self ->
   opp_buy_price o < opp_sell_price o /\
   name (opp_buy_ex o) <> name (opp_sell_ex o)).
Proof.
  intro H. apply find_Some_checked in H as (Hpos & Hthr & coin & base & g0 & Hcoin & He).
  set (qs := quotes base (exchanges self) g0) in *.
  destruct (evaluate_inv _ _ _ He)
    as (lo & hi & E & Hc & Hbx & Hsx & Hbp & Hsp & Hbf & Hsf & Hnz & Hpct).
  destruct (lowest_highest_In _ _ _ E) as [Hlo Hhi].
  assert (Hne : qs <> []).
  { intro Hq. rewrite Hq in E. discriminate. }
  destruct (lowest_highest_dict qs Hne) as (lo' & hi' & E' & _ & _ & Hbnd).
  rewrite E in E'. injection E' as <- <-.
  destruct lo as [n1 q1], hi as [n2 q2]. simpl in *.
  destruct (prices_from_In_name _ _ _ _ Hlo) as [[]|[Hq1 Hn1]].
  destruct (prices_from_In_name _ _ _ _ Hhi) as [[]|[Hq2 Hn2]].
  assert (Hin1 : In (exchange q1) (exchanges self)).
  { rewrite <- (quotes_exchanges base (exchanges self) g0). now apply in_map. }
  assert (Hin2 : In (exchange q2) (exchanges self)).
  { rewrite <- (quotes_exchanges base (exchanges self) g0). now apply in_map. }
  assert (Hle : price q1 <= price q2) by (apply (Hbnd (n2, q2) Hhi)).
  rewrite Hc, Hbx, Hsx, Hbp, Hsp.
  split; [exact Hcoin|]. split; [exact Hin1|]. split; [exact Hin2|].
  split; [exact Hle|]. split; [now rewrite Hbf, Hbx, Hbp|].
  split; [now rewrite Hsf, Hsx, Hsp|]. split; [exact Hthr|].
  intro Hfees. unfold fees_ok in Hfees. rewrite Forall_forall in Hfees.
  assert (Hlt : price q1 < price q2).
  { apply Qnot_le_lt. intro Hge.
    assert (Heq : price q2 == price q1) by (apply Qle_antisym; assumption).
    rewrite Hbf, Hbx, Hbp in Hnz. rewrite Hbf, Hsf, Hbx, Hsx, Hbp, Hsp in Hpct.
    unfold calculate_fee in Hpct, Hnz.
    pose proof (no_profit_at_equal_prices (price q1) (price q2)
                  (trading_fee (exchange q1)) (trading_fee (exchange q2))
                  (Hfees _ Hin1) (Hfees _ Hin2) Heq Hnz) as Hno.
    rewrite <- Hpct in Hno. lra. }
  split; [exact Hlt|].
  intro Hname. rewrite <- Hn1, <- Hn2 in Hname. rewrite <- Hname in Hhi.
  assert (q1 = q2).
  { eapply dict_In_unique; [|exact Hlo|exact Hhi].
    apply prices_from_NoDup. constructor. }
  subst q2. lra.
Qed.

Lemma returned_opportunity_shape_witness :
  exists o g',
    find_arbitrage_opportunity tie_bot 1 (constant_rng (1 # 4)) = Ok (Some o, g') /\
    In (opp_coin o) (coins tie_bot) /\
    opp_buy_price o <= opp_sell_price o /\
    1 <= opp_profit_pct o.
Proof.
  destruct (find_arbitrage_opportunity tie_bot 1 (constant_rng (1 # 4)))
    as [[[o|] g']|e] eqn:E;
    [|vm_compute in E; discriminate|vm_compute in E; discriminate].
  destruct (returned_opportunity_shape tie_bot 1 (constant_rng (1 # 4)) g' o E)
    as (Hc & _ & _ & Hle & _ & _ & Hthr & _).
  exists o, g'. split; [reflexivity|]. split; [exact Hc|]. split; [exact Hle|exact Hthr].
Defined.

(** ** The threshold *)

Lemma fold_update_best_Some thr cands o :
  fst (fold_left (update_best thr) cands (None, 0)) = Some o <->
  first_best cands o /\ qualifies thr o.
Proof.
  pose proof (fold_update_best_inv thr cands) as Hinv. unfold scan_inv in Hinv.
  destruct (fst (fold_left (update_best thr) cands (None, 0))) as [o'|].
  - destruct Hinv as (_ & Hq & Hfirst). split.
    + intro E. injection E as <-. split; assumption.
    + intros [Hfirst' _]. f_equal. eapply first_best_unique; eassumption.
  - destruct Hinv as [_ Hnone]. split; [discriminate|].
    intros [Hfirst Hq]. exfalso. exact (Hnone o (first_best_In _ _ Hfirst) Hq).
Qed.

Lemma option_ext {A} (r1 r2 : option A) :
  (forall x, r1 = Some x <-> r2 = Some x) -> r1 = r2.
Proof.
  intro H. destruct r1 as [a|], r2 as [b|]; try reflexivity.
  - apply H. reflexivity.
  - symmetry. apply (H a). reflexivity.
  - apply (H b). reflexivity.
Qed.

(** X8.  Lowering the threshold never changes what a scan has found: an
    opportunity returned at a threshold is returned at every lower one.  All
    thresholds that are not positive give the result of threshold zero. *)
Theorem threshold_monotone (self : Bot) (t t' : Q) (g : Rng) :
  (t' <= t ->
   forall o g', find_arbitrage_opportunity self t g = Ok (Some o, g') ->
                find_arbitrage_opportunity self t' g = Ok (Some o, g')) /\
  (t <= 0 ->
   find_arbitrage_opportunity self t g = find_arbitrage_opportunity self 0 g).
Proof.
  rewrite !find_candidates.
  destruct (candidates self (coins self) g) as [[cands g1]|e]; cbn [rbind fst snd].
  - split.
    + intros Hle o g' H. injection H as H <-. f_equal. f_equal.
      apply fold_update_best_Some in H as [Hfirst [Hpos Hthr]].
      apply fold_update_best_Some. split; [exact Hfirst|]. split; [exact Hpos|lra].
    + intro Hle. f_equal. f_equal. apply option_ext. intro o.
      rewrite !fold_update_best_Some. unfold qualifies.
      split; intros [Hfirst [Hpos Hthr]]; (split; [exact Hfirst|split; [exact Hpos|lra]]).
  - split; [discriminate|reflexivity].
Qed.

Lemma threshold_monotone_witness :
  exists o g',
    find_arbitrage_opportunity tie_bot 1 (constant_rng (1 # 4)) = Ok (Some o, g') /\
    find_arbitrage_opportunity tie_bot (- (7)) (constant_rng (1 # 4)) = Ok (Some o, g').
Proof.
  destruct (find_arbitrage_opportunity tie_bot 1 (constant_rng (1 # 4)))
    as [[[o|] g']|e] eqn:E;
    [|vm_compute in E; discriminate|vm_compute in E; discriminate].
  exists o, g'. split; [reflexivity|].
  apply (proj1 (threshold_monotone tie_bot 1 (- (7)) (constant_rng (1 # 4))));
    [discriminate|exact E].
Defined.

(** ** The trade record *)





(** ** The ledger over the iterations *)




Lemma update_prices_loop_keys d : forall g d' g',
  update_prices_loop d g = Ok (d', g') -> keys d' = keys d.
Proof.
  induction d as [|[coin p] d IH]; intros g d' g'; simpl.
  - intro H. injection H as <- _. reflexivity.
  - unfold bind, uniform, bind, random, ret.
    destruct (update_prices_loop d _) as [[rest g1]|] eqn:E; [|discriminate].
    intro H. injection H as <- _. simpl. f_equal. eapply IH. exact E.
Qed.

Lemma update_market_prices_ledger self g self1 g1 :
  update_market_prices self g = Ok (self1, g1) -> ledger_extends self self1 [] 0.
Proof.
  unfold update_market_prices, bind, ret.
  destruct (update_prices_loop (base_prices self) g) as [[bp g']|] eqn:E; [|discriminate].
  intro H. injection H as <- _. apply update_prices_loop_keys in E.
  unfold ledger_extends. simpl. rewrite app_nil_r.
  repeat split; try reflexivity; try ring; try lia. exact E.
Qed.






(** ** Runs *)

Lemma inject_Z_nonzero z : z <> 0%Z -> ~ inject_Z z == 0.
Proof. intros Hz H. apply Hz. unfold Qeq in H. simpl in H. lia. Qed.

Lemma print_overall_summary_zero self :
  (successful_trades self + failed_trades self = 0)%Z ->
  print_overall_summary self = Raise ZeroDivisionError.
Proof.
  intro H. unfold print_overall_summary. rewrite H. reflexivity.
Qed.

Lemma print_overall_summary_ok self :
  (successful_trades self + failed_trades self <> 0)%Z ->
  exists s,
    print_overall_summary self = Ok s /\
    sum_total_iterations s = (successful_trades self + failed_trades self)%Z /\
    sum_successful_trades s = successful_trades self /\
    sum_missed s = failed_trades self /\
    sum_success_rate s
      = inject_Z (successful_trades self)
        / inject_Z (successful_trades self + failed_trades self) * 100 /\
    sum_total_profit s = total_profit self /\
    sum_final_capital s = capital self /\
    (0 < capital self - total_profit self ->
     sum_roi s = Some (total_profit self / (capital self - total_profit self) * 100)).
Proof.
  intro Ht. unfold print_overall_summary.
  rewrite py_div_ok by (now apply inject_Z_nonzero). cbn [rbind].
  destruct (Qltb 0 (capital self - total_profit self)) eqn:Er.
  - apply Qltb_lt in Er. rewrite py_div_ok by lra. cbn [rbind].
    destruct (0 <? successful_trades self)%Z eqn:Es.
    + apply Z.ltb_lt in Es. rewrite py_div_ok by (apply inject_Z_nonzero; lia).
      cbn [rbind]. eexists. split; [reflexivity|]. simpl. repeat split.
    + eexists. split; [reflexivity|]. simpl. repeat split.
  - apply Qltb_ge in Er.
    destruct (0 <? successful_trades self)%Z eqn:Es.
    + apply Z.ltb_lt in Es. cbn [rbind].
      rewrite py_div_ok by (apply inject_Z_nonzero; lia).
      cbn [rbind]. eexists. split; [reflexivity|]. simpl. repeat split. intro; lra.
    + cbn [rbind]. eexists. split; [reflexivity|]. simpl. repeat split. intro; lra.
Qed.

(** X12.  A run of no iteration (a count of zero or below) does not touch
    the bot or the random source and goes straight to the summary, which
    fails on the division of its success rate when the bot has counted no
    iteration yet, as a new bot has. *)
Theorem run_without_iterations
    (clock : nat -> string) (self : Bot) (n : Z) (thr : Q) (g : Rng) :
  (n <= 0)%Z ->
  ((successful_trades self + failed_trades self = 0)%Z ->
   run clock self n thr g = Raise ZeroDivisionError) /\
  ((successful_trades self + failed_trades self <> 0)%Z ->
   exists s, run clock self n thr g = Ok ((self, s), g)).
Proof.
  intro Hn. unfold run, bind, lift, ret.
  assert (E : Z.to_nat n = 0%nat) by lia. rewrite E. simpl.
  split; intro Ht.
  - now rewrite print_overall_summary_zero.
  - destruct (print_overall_summary_ok self Ht) as (s & Es & _).
    rewrite Es. now exists s.
Qed.

Lemma run_without_iterations_witness :
  run (fun _ => "2024-01-01 00:00:00"%string) main_bot 0 1 alternating_rng
    = Raise ZeroDivisionError.
Proof.
  apply (proj1 (run_without_iterations (fun _ => "2024-01-01 00:00:00"%string)
                  main_bot 0 1 alternating_rng ltac:(discriminate))).
  reflexivity.
Defined.













(** ** The report of a trade *)



(** ** The success rate *)

(** X16.  When the summary is printed by a bot whose two counters are not
    negative, the success rate it shows lies between 0 and 100. *)
Theorem success_rate_is_a_percentage (self : Bot) (s : Summary) :
  print_overall_summary self = Ok s ->
  (0 <= successful_trades self)%Z -> (0 <= failed_trades self)%Z ->
  0 <= sum_success_rate s /\ sum_success_rate s <= 100.
Proof.
  intros H Hs Hf.
  destruct (Z.eq_dec (successful_trades self + failed_trades self) 0) as [Hz|Hnz].
  - rewrite print_overall_summary_zero in H by exact Hz. discriminate.
  - destruct (print_overall_summary_ok self Hnz) as (s' & Es & _ & _ & _ & Hr & _).
    rewrite Es in H. injection H as <-. rewrite Hr.
    assert (Hpos : 0 < inject_Z (successful_trades self + failed_trades self)).
    { change 0 with (inject_Z 0). rewrite <- Zlt_Qlt. lia. }
    assert (Hs' : 0 <= inject_Z (successful_trades self)).
    { change 0 with (inject_Z 0). rewrite <- Zle_Qle. exact Hs. }
    assert (Hle : inject_Z (successful_trades self)
                  <= inject_Z (successful_trades self + failed_trades self)).
    { rewrite <- Zle_Qle. lia. }
    assert (H0 : 0 <= inject_Z (successful_trades self)
                      / inject_Z (successful_trades self + failed_trades self)).
    { apply Qle_shift_div_l; [exact Hpos|]. lra. }
    assert (H1 : inject_Z (successful_trades self)
                 / inject_Z (successful_trades self + failed_trades self) <= 1).
    { apply Qle_shift_div_r; [exact Hpos|]. lra. }
    split; lra.
Qed.

Lemma success_rate_is_a_percentage_witness :
  exists s,
    print_overall_summary missing_bot = Ok s /\
    0 <= sum_success_rate s /\ sum_success_rate s <= 100.
Proof.
  destruct (print_overall_summary missing_bot) as [s|e] eqn:E;
    [|vm_compute in E; discriminate].
  exists s. split; [reflexivity|].
  apply (success_rate_is_a_percentage missing_bot s E); discriminate.
Defined.

(** ** The trades of a run *)

Lemma iteration_history now thr self g self' g' :
  iteration now thr self g = Ok (self', g') ->
  exists new,
    trades self' = trades self ++ new /\
    Forall (fun tr => 0 < tr_profit_pct tr /\ thr <= tr_profit_pct tr) new.
Proof.
  unfold iteration, bind.
  destruct (update_market_prices self g) as [[self1 g1]|] eqn:Eu; [|discriminate].
  apply update_market_prices_ledger in Eu as (Ht1 & _). rewrite app_nil_r in Ht1.
  destruct (find_arbitrage_opportunity self1 thr g1) as [[opp g2]|] eqn:Ef; [|discriminate].
  unfold lift, ret.
  destruct (execute_trade now self1 opp) as [[self2 r]|] eqn:Ex; [|discriminate].
  intro H. injection H as <- _. simpl.
  destruct opp as [o|].
  - apply find_Some_checked in Ef as (Hpos & Hthr & _).
    destruct o as [c bx sx bp sp pct bf sf]. unfold execute_trade in Ex.
    destruct (py_div (capital self1 * (1 # 10)) bp) as [q|]; cbn [rbind] in Ex;
      [|discriminate].
    injection Ex as <- _. simpl in *. eexists. rewrite Ht1. split; [reflexivity|].
    constructor; [|constructor]. simpl. split; assumption.
  - injection Ex as <- _. simpl. exists []. rewrite app_nil_r.
    split; [exact Ht1|constructor].
Qed.

(** X17.  Every record that a run appends to the trade history has a
    strictly positive profit percentage that is at least the threshold of
    the run. *)
Theorem history_clears_threshold
    (clock : nat -> string) (thr : Q) (n i : nat) (self self' : Bot) (g g' : Rng) :
  run_loop clock thr n i self g = Ok (self', g') ->
  exists new,
    trades self' = trades self ++ new /\
    Forall (fun tr => 0 < tr_profit_pct tr /\ thr <= tr_profit_pct tr) new.
Proof.
  revert i self g. induction n as [|n IH]; intros i self g; simpl.
  - unfold ret. intro H. injection H as <- _. exists []. rewrite app_nil_r.
    split; [reflexivity|constructor].
  - unfold bind.
    destruct (iteration (clock i) thr self g) as [[self1 g1]|] eqn:Ei; [|discriminate].
    intro Hrun. apply iteration_history in Ei as (l1 & Ht1 & H1).
    apply IH in Hrun as (l2 & Ht2 & H2).
    exists (l1 ++ l2). split; [now rewrite Ht2, Ht1, app_assoc|].
    apply Forall_app. split; assumption.
Qed.

Lemma history_clears_threshold_witness :
  exists self' g' new,
    run_loop (fun _ => "2024-01-01 00:00:00"%string) 1 2 0 tie_bot (constant_rng (1 # 4))
      = Ok (self', g') /\
    trades self' = trades tie_bot ++ new /\
    Forall (fun tr => 0 < tr_profit_pct tr /\ 1 <= tr_profit_pct tr) new.
Proof.
  destruct (run_loop (fun _ => "2024-01-01 00:00:00"%string) 1 2 0 tie_bot
              (constant_rng (1 # 4))) as [[self' g']|e] eqn:E;
    [|vm_compute in E; discriminate].
  destruct (history_clears_threshold _ _ _ _ _ _ _ _ E) as (new & Ht & Hall).
  exists self', g', new. split; [reflexivity|]. split; [exact Ht|exact Hall].
Defined.
